(** * Dolt storage core: tuple builder, prolly meta-values, mutable maps,
      three-way merge and the SQL table writer.

    A shallow embedding of the Go sources and the properties the design
    document states about them.

    - [val]    : go/store/val/tuple_builder.go
    - [prolly] : go/store/prolly (node meta-values, MutableMap, ThreeWayMerge)
    - [dsess]  : go/libraries/doltcore/sqle/dsess/write_session.go
    - [durable]: go/libraries/doltcore/doltdb/durable/index.go *)

From Stdlib Require Import ZArith Lia Bool String.
From Stdlib.Strings Require Import Byte.
From stdpp Require Import base option list gmap strings.

(** ** Shared vocabulary *)

(** The contents of a non-nil Go [[]byte]. *)
Definition bytes := list byte.

(** A Go [[]byte]; [None] is the nil slice, [Some []] an empty non-nil one. *)
Definition slice := option bytes.

(** A Go [error]; [None] is [nil]. *)
Definition error := option string.

(** The outcome of a Go call that may panic. *)
Inductive outcome (A : Type) : Type :=
| Returns (a : A)
| Panics (msg : string).
Arguments Returns {A} a.
Arguments Panics {A} msg.

Definition isNil {A} (s : option A) : bool :=
  match s with None => true | Some _ => false end.

(** What a call with an error result hands back: the value, or the error
    with no value. *)
Inductive result (A : Type) : Type :=
| Ok (a : A)
| Err (e : string).
Arguments Ok {A} a.
Arguments Err {A} e.

(** ** package val *)
Module val.

(** [val.Tuple] is a byte slice. *)
Definition Tuple := slice.

(** The encodings [PutField] names, and any other value of the type
    (the switch has a default case). *)
Inductive Encoding :=
| Int8Enc | Uint8Enc | Int16Enc | Uint16Enc | Int24Enc | Uint24Enc
| Int32Enc | Uint32Enc | Int64Enc | Uint64Enc
| Float32Enc | Float64Enc | StringEnc | BytesEnc
| OtherEnc (code : nat).

#[export] Instance Encoding_eq_dec : EqDecision Encoding.
Proof. solve_decision. Defined.

(** Modelled from the spec: [val.Type], one field of a descriptor, with its
    encoding and whether it may be null (the collation plays no part
    here). *)
Record Type_ := { Enc : Encoding; Nullable : bool }.

(** Modelled from the spec: [TupleDesc], an ordered list of field types. *)
Record TupleDesc := { Types : list Type_ }.

(** Modelled from the spec: [TupleDesc.Count], the number of fields. *)
Definition Count (td : TupleDesc) : nat := length (Types td).

(** Modelled from the spec: [ByteSize] is declared in another file of the
    package; sizes and offsets within a tuple are 16-bit values, so a
    conversion to [ByteSize], and a sum of two of them, is taken modulo
    2^16. *)
Definition byteSizeModulus : nat := 2 ^ 16.

Definition ByteSize (n : nat) : nat := n mod byteSizeModulus.
Arguments byteSizeModulus : simpl never.
Arguments ByteSize : simpl never.

(** A field of the builder is a slice of the builder's own buffer:
    [Some (off, len)] stands for [buf[off : off+len]], [None] for nil. *)
Definition field := option (nat * nat).

(** [TupleBuilder]: [buf] is the scratch array, [fields] the array of
    [MaxTupleFields] slices into it. *)
Record TupleBuilder := {
  Desc : TupleDesc;
  buf : bytes;
  pos : nat;
  fields : list field
}.

Section Builder.

(** Constants and the tuple constructor of package val that the builder
    uses; their declarations are outside the builder's file. *)
Variable MaxTupleDataSize MaxTupleFields : nat.
Variable NewTuple : list slice -> Tuple.

Definition NewTupleBuilder (desc : TupleDesc) : TupleBuilder :=
  {| Desc := desc;
     buf := replicate MaxTupleDataSize x00;
     pos := 0;
     fields := replicate MaxTupleFields None |}.

(** The bytes a field slice currently shows. *)
Definition fieldBytes (b : bytes) (f : field) : slice :=
  match f with
  | None => None
  | Some (off, len) => Some (take len (drop off b))
  end.

Definition writeAt (off : nat) (v : bytes) (b : bytes) : bytes :=
  take off b ++ v ++ drop (off + length v) b.

(** Modelled from the spec: [TupleDesc.expectEncoding] is defined with the
    descriptor; a field is written with the encoding its type names. *)
Definition expectEncoding (td : TupleDesc) (i : nat) (enc : Encoding)
  : outcome unit :=
  match Types td !! i with
  | None => Panics "index out of range"
  | Some typ =>
      if decide (Enc typ = enc) then Returns tt
      else Panics "incorrect encoding"
  end.

(** The body every [Put*] method shares:
    [expectEncoding(i, enc); sz := ByteSize(len(v));
     fields[i] = buf[pos : pos+sz]; write(fields[i], v); pos += sz].
    [pos] and [sz] are of type [ByteSize], so [pos+sz] is the sum modulo
    2^16; the slice expression panics unless [pos <= pos+sz <= len(buf)];
    the write copies into the slice as many bytes of [v] as it holds. *)
Definition putField (enc : Encoding) (i : nat) (v : bytes)
    (tb : TupleBuilder) : outcome TupleBuilder :=
  match expectEncoding (Desc tb) i enc with
  | Panics m => Panics m
  | Returns _ =>
      let sz := ByteSize (length v) in
      let hi := ByteSize (pos tb + sz) in
      if decide (pos tb <= hi /\ hi <= length (buf tb)) then
        if decide (i < length (fields tb)) then
          Returns {| Desc := Desc tb;
                     buf := writeAt (pos tb) (take (hi - pos tb) v) (buf tb);
                     pos := hi;
                     fields := <[i := Some (pos tb, hi - pos tb)]> (fields tb) |}
        else Panics "index out of range"
      else Panics "slice bounds out of range"
  end.

Definition PutBool (i : nat) (v : bool) :=
  putField Int8Enc i [if v then x01 else x00].

Definition PutUint8 (i : nat) (v : byte) := putField Uint8Enc i [v].

Definition PutString (i : nat) (v : string) :=
  putField StringEnc i (list_byte_of_string v).

Definition PutBytes (i : nat) (v : bytes) := putField BytesEnc i v.

(** The loop at the head of [Build]:
    [if !typ.Nullable && tb.fields[i] == nil { panic(...) }]. *)
Fixpoint checkNonNull (types : list Type_) (i : nat) (fs : list field)
  : outcome unit :=
  match types with
  | [] => Returns tt
  | typ :: rest =>
      if Nullable typ then checkNonNull rest (S i) fs
      else
        match fs !! i with
        | None => Panics "index out of range"
        | Some None => Panics "cannot write NULL to non-NULL field"
        | Some (Some _) => checkNonNull rest (S i) fs
        end
  end.

(** [Recycle] sets [pos] to zero and nothing else. *)
Definition Recycle (tb : TupleBuilder) : TupleBuilder :=
  {| Desc := Desc tb; buf := buf tb; pos := 0; fields := fields tb |}.

Definition Build (tb : TupleBuilder) : outcome (Tuple * TupleBuilder) :=
  match checkNonNull (Types (Desc tb)) 0 (fields tb) with
  | Panics m => Panics m
  | Returns _ =>
      if decide (Count (Desc tb) <= length (fields tb)) then
        let values := fieldBytes (buf tb) <$> take (Count (Desc tb)) (fields tb) in
        Returns (NewTuple values, Recycle tb)
      else Panics "slice bounds out of range"
  end.

(** Every non-nullable field of the descriptor holds a non-nil slice. *)
Definition populated (tb : TupleBuilder) : Prop :=
  forall i typ, Types (Desc tb) !! i = Some typ -> Nullable typ = false ->
    exists f, fields tb !! i = Some (Some f).

(** The array type of [fields], and a descriptor that fits it. *)
Definition wellFormed (tb : TupleBuilder) : Prop :=
  length (fields tb) = MaxTupleFields /\ Count (Desc tb) <= MaxTupleFields.

Lemma checkNonNull_cases types i fs :
  checkNonNull types i fs = Returns tt
  \/ checkNonNull types i fs = Panics "cannot write NULL to non-NULL field"
  \/ checkNonNull types i fs = Panics "index out of range".
Proof.
  revert i; induction types as [|typ rest IH]; intros i; simpl; [by left|].
  destruct (Nullable typ); [apply IH|].
  destruct (fs !! i) as [[f|]|]; [apply IH | by right; left | by right; right].
Qed.

Lemma checkNonNull_in_range types i fs :
  i + length types <= length fs ->
  checkNonNull types i fs <> Panics "index out of range".
Proof.
  revert i; induction types as [|typ rest IH]; intros i Hlen; simpl in *;
    [discriminate|].
  destruct (Nullable typ); [apply IH; lia|].
  destruct (fs !! i) as [[f|]|] eqn:E; [apply IH; lia | discriminate |].
  apply lookup_ge_None in E. unfold field in *. lia.
Qed.

Lemma checkNonNull_Returns types i fs :
  checkNonNull types i fs = Returns tt <->
  (forall j typ, types !! j = Some typ -> Nullable typ = false ->
     exists f, fs !! (i + j) = Some (Some f)).
Proof.
  revert i; induction types as [|typ rest IH]; intros i; simpl.
  - split; [intros _ j typ Hj; by rewrite lookup_nil in Hj | done].
  - destruct (Nullable typ) eqn:En.
    + rewrite IH. split.
      * intros H [|j] typ' Hj Hn; simpl in Hj.
        -- congruence.
        -- replace (i + S j) with (S i + j) by lia. eauto.
      * intros H j typ' Hj Hn.
        replace (S i + j) with (i + S j) by lia. eauto.
    + destruct (fs !! i) as [[f|]|] eqn:E.
      * rewrite IH. split.
        -- intros H [|j] typ' Hj Hn; simpl in Hj.
           ++ rewrite Nat.add_0_r. eauto.
           ++ replace (i + S j) with (S i + j) by lia. eauto.
        -- intros H j typ' Hj Hn.
           replace (S i + j) with (i + S j) by lia. eauto.
      * split; [discriminate|]. intros H.
        destruct (H 0 typ eq_refl En) as [f Hf].
        rewrite Nat.add_0_r in Hf. congruence.
      * split; [discriminate|]. intros H.
        destruct (H 0 typ eq_refl En) as [f Hf].
        rewrite Nat.add_0_r in Hf. congruence.
Qed.

Lemma NewTupleBuilder_wellFormed (desc : TupleDesc) :
  Count desc <= MaxTupleFields -> wellFormed (NewTupleBuilder desc).
Proof. intros Hc. split; [apply length_replicate | exact Hc]. Qed.

(** A [Put*] that returns has filled the field's slot, and the builder
    keeps its shape. *)
Lemma putField_populates enc i v (tb tb' : TupleBuilder) :
  putField enc i v tb = Returns tb' ->
  (exists f, fields tb' !! i = Some (Some f))
  /\ Desc tb' = Desc tb
  /\ (wellFormed tb -> wellFormed tb').
Proof.
  unfold putField, wellFormed. intros Hput.
  destruct (expectEncoding _ _ _); [|discriminate].
  cbv zeta in Hput.
  destruct (decide _); [|discriminate].
  destruct (decide _) as [Hi|]; [|discriminate].
  injection Hput as <-. cbn.
  split; [eexists; by apply list_lookup_insert_eq|]. split; [done|].
  by rewrite length_insert.
Qed.

(** What [Build] tests: it hands out a tuple exactly when the slot of every
    non-nullable field of the descriptor is not nil; when one is nil it
    panics with "cannot write NULL to non-NULL field" and returns
    nothing. *)
Theorem Build_iff_populated (tb : TupleBuilder) :
  wellFormed tb ->
  ((exists tup tb', Build tb = Returns (tup, tb')) <-> populated tb)
  /\ (~ populated tb ->
      Build tb = Panics "cannot write NULL to non-NULL field").
Proof.
  intros [Hlen Hcnt]. unfold Build, populated, Count in *.
  destruct (checkNonNull_Returns (Types (Desc tb)) 0 (fields tb)) as [Hr1 Hr2].
  pose proof (checkNonNull_in_range (Types (Desc tb)) 0 (fields tb)) as Hrange.
  destruct (checkNonNull_cases (Types (Desc tb)) 0 (fields tb))
    as [E|[E|E]]; rewrite E.
  - destruct (decide _) as [_|Hbad]; [|lia].
    specialize (Hr1 E). simpl in Hr1.
    split; [|intros Hn; contradiction].
    split; [intros _; exact Hr1 | intros _; eauto].
  - split; [|done].
    split; [intros (tup & tb' & H); discriminate|].
    intros Hp. specialize (Hr2 Hp). congruence.
  - exfalso. apply Hrange; [simpl; lia | done].
Qed.

(** C6. What the code does in place of a reset: [Recycle] leaves [fields]
    as they were, so [Build] on the builder a successful [Build] returned
    succeeds again and hands out the very same tuple. *)
Theorem Build_twice_same_tuple (tb tb' : TupleBuilder) (tup : Tuple) :
  Build tb = Returns (tup, tb') ->
  fields tb' = fields tb /\ Build tb' = Returns (tup, tb').
Proof.
  unfold Build. intros H.
  destruct (checkNonNull _ _ _) as [[]|m] eqn:E; [|discriminate].
  destruct (decide _) as [Hc|]; [|discriminate].
  injection H as <- <-. simpl. rewrite E.
  destruct (decide _); [done | lia].
Qed.

End Builder.

(** *** Fixed-width integers *)

(** The byte of the low eight bits of [z]. *)
Definition byteOfZ (z : Z) : byte :=
  default x00 (Byte.of_N (Z.to_N (z mod 256))).

Definition byteToZ (b : byte) : Z := Z.of_N (Byte.to_N b).

(** The [n] low-order bytes of [u], least significant first. *)
Fixpoint putLittleEndian (n : nat) (u : Z) : bytes :=
  match n with
  | O => []
  | S n' => byteOfZ u :: putLittleEndian n' (u / 256)
  end.

Fixpoint getLittleEndian (bs : bytes) : Z :=
  match bs with
  | [] => 0
  | b :: rest => byteToZ b + 256 * getLittleEndian rest
  end.

Definition uint48Size : nat := 6.

(** Modelled from the spec: [val.WriteUint48] is defined in another file of
    the package.  Fixed-width fields contribute their little-endian bytes;
    a 48-bit unsigned integer is the six low-order bytes of the value
    (what the writer does with a larger value is not told, and
    [no_six_byte_codec_for_uint64] below does not depend on it). *)
Definition WriteUint48 (u : Z) : bytes := putLittleEndian uint48Size u.

(** Modelled from the spec: [val.ReadUint48], the little-endian value of
    the bytes. *)
Definition ReadUint48 (s : slice) : Z := getLittleEndian (default [] s).

Lemma byteToZ_byteOfZ z : byteToZ (byteOfZ z) = (z mod 256)%Z.
Proof.
  unfold byteToZ, byteOfZ.
  assert (0 <= z mod 256 < 256)%Z as Hr by (apply Z.mod_pos_bound; lia).
  destruct (Byte.of_N (Z.to_N (z mod 256))) as [b|] eqn:E; simpl.
  - apply Byte.to_of_N in E. rewrite E. lia.
  - apply Byte.of_N_None_iff in E. lia.
Qed.

Lemma length_putLittleEndian n u : length (putLittleEndian n u) = n.
Proof. revert u; induction n; intros u; simpl; auto. Qed.

Lemma getLittleEndian_putLittleEndian n u :
  getLittleEndian (putLittleEndian n u) = (u mod 256 ^ Z.of_nat n)%Z.
Proof.
  revert u; induction n as [|n IH]; intros u.
  - simpl. by rewrite Z.mod_1_r.
  - cbn [putLittleEndian getLittleEndian].
    rewrite byteToZ_byteOfZ, IH, Nat2Z.inj_succ, Z.pow_succ_r by lia.
    rewrite Z.rem_mul_r by lia. reflexivity.
Qed.

Lemma ReadUint48_WriteUint48 u :
  ReadUint48 (Some (WriteUint48 u)) = (u mod 2 ^ 48)%Z.
Proof.
  unfold ReadUint48.
  change (default [] (Some (WriteUint48 u))) with (putLittleEndian uint48Size u).
  rewrite getLittleEndian_putLittleEndian. reflexivity.
Qed.

(** *** Six bytes cannot hold every 64-bit count *)

Lemma byteToZ_bound b : (0 <= byteToZ b < 256)%Z.
Proof. unfold byteToZ. pose proof (Byte.to_N_bounded b). lia. Qed.

Lemma byteToZ_inj a b : byteToZ a = byteToZ b -> a = b.
Proof.
  unfold byteToZ. intros E. apply N2Z.inj in E.
  pose proof (Byte.of_to_N a) as Ha. rewrite E, Byte.of_to_N in Ha.
  congruence.
Qed.

Lemma getLittleEndian_bound bs :
  (0 <= getLittleEndian bs < 256 ^ Z.of_nat (length bs))%Z.
Proof.
  induction bs as [|b bs IH]; [simpl; lia|].
  cbn [getLittleEndian length]. rewrite Nat2Z.inj_succ, Z.pow_succ_r by lia.
  pose proof (byteToZ_bound b). lia.
Qed.

Lemma getLittleEndian_inj a b :
  length a = length b -> getLittleEndian a = getLittleEndian b -> a = b.
Proof.
  revert b; induction a as [|x a IH]; intros [|y b] Hlen E;
    simpl in Hlen; try done.
  cbn [getLittleEndian] in E.
  pose proof (byteToZ_bound x). pose proof (byteToZ_bound y).
  assert (byteToZ x = byteToZ y /\ getLittleEndian a = getLittleEndian b)
    as [Ex Ea] by lia.
  f_equal; [by apply byteToZ_inj | apply IH; [lia | done]].
Qed.

(** Among the values of [f] below [n] is either [c] or not. *)
Lemma bounded_search (f : Z -> Z) (c n : Z) :
  (0 <= n)%Z ->
  (exists i, (0 <= i < n)%Z /\ f i = c)
  \/ (forall i, (0 <= i < n)%Z -> f i <> c).
Proof.
  revert n. apply (natlike_ind (fun n => _ \/ _)).
  - right. intros i Hi. lia.
  - intros n Hn [(i & Hi & E)|Hnone].
    + left. exists i. split; [lia | done].
    + destruct (Z.eq_dec (f n) c) as [E|Hne].
      * left. exists n. split; [lia | done].
      * right. intros i Hi.
        destruct (Z.eq_dec i n) as [->|]; [done | apply Hnone; lia].
Qed.

(** The pigeonhole principle on an interval of [Z]. *)
Lemma pigeonhole (n : Z) :
  (0 <= n)%Z ->
  forall f : Z -> Z,
    (forall i, (0 <= i <= n)%Z -> (0 <= f i < n)%Z) ->
    exists i j, (0 <= i < j)%Z /\ (j <= n)%Z /\ f i = f j.
Proof.
  revert n.
  apply (natlike_ind (fun n => forall f : Z -> Z, _ -> exists i j, _)).
  - intros f Hf. specialize (Hf 0%Z). lia.
  - intros n Hn IH f Hf.
    destruct (bounded_search f (f (Z.succ n)) (Z.succ n)) as [(i & Hi & E)|Hnone];
      [lia | |].
    + exists i, (Z.succ n). repeat split; lia.
    + set (c := f (Z.succ n)) in *.
      destruct (IH (fun i => if (f i <? c)%Z then f i else (f i - 1)%Z))
        as (i & j & Hij & Hj & E).
      * intros i Hi. pose proof (Hf i). pose proof (Hf (Z.succ n)).
        pose proof (Hnone i). fold c in H0.
        destruct (Z.ltb_spec (f i) c); lia.
      * exists i, j. split; [done|]. split; [lia|].
        pose proof (Hnone i). pose proof (Hnone j).
        destruct (Z.ltb_spec (f i) c); destruct (Z.ltb_spec (f j) c); lia.
Qed.

(** However a 64-bit count is written into six bytes and read back, some
    count does not come back. *)
Lemma no_six_byte_codec_for_uint64 (write : Z -> bytes) (read : slice -> Z) :
  (forall u, length (write u) = uint48Size) ->
  ~ (forall u, (0 <= u < 2 ^ 64)%Z -> read (Some (write u)) = u).
Proof.
  intros Hlen Hround.
  destruct (pigeonhole (2 ^ 48) ltac:(lia)
              (fun u => getLittleEndian (write u)))
    as (i & j & Hij & Hj & E).
  - intros u _. pose proof (getLittleEndian_bound (write u)) as Hb.
    rewrite Hlen in Hb. exact Hb.
  - apply getLittleEndian_inj in E; [|by rewrite !Hlen].
    pose proof (Hround i ltac:(lia)). pose proof (Hround j ltac:(lia)).
    rewrite E in *. lia.
Qed.

(** *** A reference tuple codec

    [NewTuple] and [Tuple.GetField] are defined in other files of package
    val, so the developments below take them as parameters.  This small
    self-delimiting codec shows the parameters can be met: a field is
    written byte by byte, each byte after a [x01] mark, and closed by
    [x00]; a nil field is the single mark [x02]. *)

Fixpoint markBytes (f : bytes) : bytes :=
  match f with
  | [] => [x00]
  | b :: rest => x01 :: b :: markBytes rest
  end.

Definition markField (f : slice) : bytes :=
  match f with
  | None => [x02]
  | Some f => markBytes f
  end.

Definition refNewTuple (values : list slice) : Tuple :=
  Some (concat (markField <$> values)).

(** Reads one marked field off the front; [None] on malformed input. *)
Fixpoint unmarkBytes (bs : bytes) : option (bytes * bytes) :=
  match bs with
  | x00 :: rest => Some ([], rest)
  | x01 :: b :: rest =>
      match unmarkBytes rest with
      | Some (f, rest') => Some (b :: f, rest')
      | None => None
      end
  | _ => None
  end.

Definition unmarkField (bs : bytes) : option (slice * bytes) :=
  match bs with
  | x02 :: rest => Some (None, rest)
  | _ =>
      match unmarkBytes bs with
      | Some (f, rest) => Some (Some f, rest)
      | None => None
      end
  end.

Fixpoint nthField (i : nat) (bs : bytes) : slice :=
  match unmarkField bs with
  | None => None
  | Some (f, rest) =>
      match i with
      | O => f
      | S i' => nthField i' rest
      end
  end.

Definition refGetField (tup : Tuple) (i : nat) : slice :=
  match tup with
  | None => None
  | Some bs => nthField i bs
  end.

Lemma unmarkBytes_markBytes f rest :
  unmarkBytes (markBytes f ++ rest) = Some (f, rest).
Proof. induction f as [|b f IH]; simpl; [done | by rewrite IH]. Qed.

Lemma unmarkField_markField f rest :
  unmarkField (markField f ++ rest) = Some (f, rest).
Proof.
  destruct f as [f|]; [|done]. unfold unmarkField, markField.
  rewrite unmarkBytes_markBytes. by destruct f.
Qed.

Lemma nthField_concat (fs : list slice) i f :
  fs !! i = Some f -> nthField i (concat (markField <$> fs)) = f.
Proof.
  revert i; induction fs as [|g fs IH]; intros i Hi; [done|].
  rewrite fmap_cons, concat_cons.
  destruct i as [|i]; simpl in Hi |- *; rewrite unmarkField_markField.
  - congruence.
  - by apply IH.
Qed.

Lemma refGetField_refNewTuple (fs : list slice) i f :
  fs !! i = Some f -> refGetField (refNewTuple fs) i = f.
Proof. apply nthField_concat. Qed.

(** *** The builder at work *)

Definition exampleDesc : TupleDesc :=
  {| Types := [ {| Enc := Uint8Enc; Nullable := false |};
                {| Enc := BytesEnc; Nullable := true |} ] |}.

Definition freshBuilder : TupleBuilder := NewTupleBuilder 16 4 exampleDesc.

(** [freshBuilder] after [PutUint8(0, 7)]. *)
Definition exampleBuilder : TupleBuilder :=
  match PutUint8 0 x07 freshBuilder with
  | Returns tb => tb
  | Panics _ => freshBuilder
  end.

Lemma Build_iff_populated_witness :
  ((exists tup tb', Build refNewTuple exampleBuilder = Returns (tup, tb'))
   <-> populated exampleBuilder)
  /\ (~ populated exampleBuilder ->
      Build refNewTuple exampleBuilder
      = Panics "cannot write NULL to non-NULL field").
Proof.
  apply (Build_iff_populated 4 refNewTuple exampleBuilder).
  split; [reflexivity | vm_compute; lia].
Defined.

Lemma Build_twice_same_tuple_witness :
  fields (Recycle exampleBuilder) = fields exampleBuilder
  /\ Build refNewTuple (Recycle exampleBuilder)
     = Returns (refNewTuple [Some [x07]; None], Recycle exampleBuilder).
Proof.
  apply (Build_twice_same_tuple refNewTuple exampleBuilder).
  reflexivity.
Defined.

(** A builder that has never been written to refuses to build for
    [exampleDesc]; the builder a [Build] returned does not. *)
Example Build_on_fresh_builder_panics :
  Build refNewTuple freshBuilder
  = Panics "cannot write NULL to non-NULL field".
Proof. reflexivity. Qed.

(** *** What the builder's fields show *)

(** What field [i] of the builder reads as: [None] past the array,
    [Some None] for a nil slice. *)
Definition shown (tb : TupleBuilder) (i : nat) : option slice :=
  fieldBytes (buf tb) <$> (fields tb !! i).

(** Between two [Recycle]s every field slice lies below [pos], and [pos]
    within the buffer. *)
Definition inCycle (tb : TupleBuilder) : Prop :=
  pos tb <= length (buf tb)
  /\ forall i off len,
       fields tb !! i = Some (Some (off, len)) -> off + len <= pos tb.

(** A run of [Put*] calls, each given as encoding, field index and the
    bytes handed to the writer. *)
Fixpoint putAll (puts : list (Encoding * nat * bytes)) (tb : TupleBuilder)
  : outcome TupleBuilder :=
  match puts with
  | [] => Returns tb
  | (enc, i, v) :: rest =>
      match putField enc i v tb with
      | Returns tb' => putAll rest tb'
      | Panics msg => Panics msg
      end
  end.

(** What a put of [v] leaves in the field: the first [ByteSize(len(v))]
    bytes of [v], which is all of [v] when it is shorter than 2^16. *)
Definition written (v : bytes) : bytes := take (ByteSize (length v)) v.

(** What was last left in field [i] by a run of puts, nil when there was
    no put to it. *)
Fixpoint lastPut (puts : list (Encoding * nat * bytes)) (i : nat) : slice :=
  match puts with
  | [] => None
  | (_, j, v) :: rest =>
      match lastPut rest i with
      | Some w => Some w
      | None => if decide (j = i) then Some (written v) else None
      end
  end.

Lemma byteSizeModulus_nonzero : byteSizeModulus <> 0.
Proof. unfold byteSizeModulus. by apply Nat.pow_nonzero. Qed.

Lemma ByteSize_small n : n < byteSizeModulus -> ByteSize n = n.
Proof. apply Nat.mod_small. Qed.

Lemma ByteSize_sum pos sz :
  sz < byteSizeModulus -> pos <= ByteSize (pos + sz) ->
  ByteSize (pos + sz) = pos + sz.
Proof.
  intros Hsz Hle. unfold ByteSize in *.
  destruct (decide (pos + sz < byteSizeModulus)) as [Hs|Hs];
    [by apply Nat.mod_small|].
  exfalso.
  replace (pos + sz) with ((pos + sz - byteSizeModulus) + 1 * byteSizeModulus)
    in Hle by lia.
  rewrite Nat.Div0.mod_add in Hle.
  pose proof (Nat.Div0.mod_le (pos + sz - byteSizeModulus) byteSizeModulus).
  lia.
Qed.

Lemma length_written (v : bytes) : length (written v) = ByteSize (length v).
Proof.
  unfold written, ByteSize. rewrite length_take.
  pose proof (Nat.Div0.mod_le (length v) byteSizeModulus). lia.
Qed.

Lemma written_short (v : bytes) :
  length v < byteSizeModulus -> written v = v.
Proof.
  intros H. unfold written. rewrite ByteSize_small by done. by apply take_ge.
Qed.

Lemma length_writeAt off (v b : bytes) :
  off + length v <= length b -> length (writeAt off v b) = length b.
Proof.
  intros H. unfold writeAt.
  rewrite !length_app, length_take, length_drop. lia.
Qed.

Lemma writeAt_shows off (v b : bytes) :
  off <= length b -> take (length v) (drop off (writeAt off v b)) = v.
Proof.
  intros H. unfold writeAt.
  rewrite drop_app_length' by (rewrite length_take; lia).
  by rewrite take_app_length.
Qed.

Lemma writeAt_below off len at_ (v b : bytes) :
  off + len <= at_ -> at_ <= length b ->
  take len (drop off (writeAt at_ v b)) = take len (drop off b).
Proof.
  intros H1 H2. unfold writeAt.
  rewrite !take_drop_commute. f_equal.
  rewrite take_app_le by (rewrite length_take; lia).
  rewrite take_take. f_equal. lia.
Qed.

(** A put that returns, in full: the sum [pos+sz] did not wrap, and the
    field is the [sz] bytes at [pos], filled with the head of [v]. *)
Lemma putField_Returns enc i v (tb tb' : TupleBuilder) :
  putField enc i v tb = Returns tb' ->
  pos tb + length (written v) <= length (buf tb)
  /\ pos tb + length (written v) < byteSizeModulus
  /\ i < length (fields tb)
  /\ tb' = {| Desc := Desc tb;
              buf := writeAt (pos tb) (written v) (buf tb);
              pos := pos tb + length (written v);
              fields := <[i := Some (pos tb, length (written v))]> (fields tb) |}.
Proof.
  unfold putField. intros Hput.
  destruct (expectEncoding _ _ _); [|discriminate].
  cbv zeta in Hput.
  destruct (decide _) as [[Hlo Hhi]|]; [|discriminate].
  destruct (decide _) as [Hi|]; [|discriminate].
  assert (ByteSize (length v) < byteSizeModulus) as Hsz
    by apply Nat.mod_upper_bound, byteSizeModulus_nonzero.
  pose proof (ByteSize_sum _ _ Hsz Hlo) as Hsum.
  assert (ByteSize (pos tb + ByteSize (length v)) < byteSizeModulus) as Hlt
    by apply Nat.mod_upper_bound, byteSizeModulus_nonzero.
  rewrite Hsum in Hput, Hhi, Hlt.
  replace (pos tb + ByteSize (length v) - pos tb) with (ByteSize (length v))
    in Hput by lia.
  injection Hput as <-. rewrite length_written. done.
Qed.

Lemma NewTupleBuilder_inCycle MaxTupleDataSize MaxTupleFields desc :
  inCycle (NewTupleBuilder MaxTupleDataSize MaxTupleFields desc).
Proof.
  split; cbn; [lia|]. intros i off len Hi.
  apply lookup_replicate in Hi as [Hi _]. discriminate.
Qed.

Lemma shown_NewTupleBuilder MaxTupleDataSize MaxTupleFields desc i :
  i < MaxTupleFields ->
  shown (NewTupleBuilder MaxTupleDataSize MaxTupleFields desc) i = Some None.
Proof.
  intros Hi. unfold shown; cbn. by rewrite lookup_replicate_2.
Qed.

Lemma putField_shows enc i v (tb tb' : TupleBuilder) :
  putField enc i v tb = Returns tb' ->
  shown tb' i = Some (Some (written v)) /\ Desc tb' = Desc tb.
Proof.
  intros Hput. apply putField_Returns in Hput as (Hp & _ & Hi & ->).
  unfold shown; cbn. rewrite list_lookup_insert_eq by done. cbn.
  by rewrite writeAt_shows by lia.
Qed.

Lemma putField_inCycle enc j v (tb tb' : TupleBuilder) :
  inCycle tb -> putField enc j v tb = Returns tb' -> inCycle tb'.
Proof.
  intros [Hpos Hbelow] Hput.
  apply putField_Returns in Hput as (Hp & _ & Hj & ->).
  split; cbn; [rewrite length_writeAt by done; lia|].
  intros i off len Hi.
  destruct (decide (j = i)) as [->|Hne].
  - rewrite list_lookup_insert_eq in Hi by done.
    injection Hi as <- <-. lia.
  - rewrite list_lookup_insert_ne in Hi by done.
    specialize (Hbelow _ _ _ Hi). lia.
Qed.

Lemma putField_shows_others enc j v (tb tb' : TupleBuilder) i :
  inCycle tb -> putField enc j v tb = Returns tb' -> i <> j ->
  shown tb' i = shown tb i.
Proof.
  intros [Hpos Hbelow] Hput Hne.
  apply putField_Returns in Hput as (Hp & _ & Hj & ->).
  unfold shown; cbn.
  rewrite list_lookup_insert_ne by done.
  destruct (fields tb !! i) as [[[off len]|]|] eqn:Hi; cbn; [|done|done].
  specialize (Hbelow _ _ _ Hi).
  by rewrite writeAt_below by lia.
Qed.

(** X1. A [Put*] that returns: the field reads back as the first
    [ByteSize(len(v))] bytes of what was put, that is [len(v)] modulo 2^16
    of them, and so as all of it when it is shorter than 2^16 bytes; [pos]
    has moved past the field, and the scratch buffer has kept its size. *)
Theorem putField_round_trip enc i v (tb tb' : TupleBuilder) :
  putField enc i v tb = Returns tb' ->
  shown tb' i = Some (Some (take (ByteSize (length v)) v))
  /\ (length v < byteSizeModulus -> shown tb' i = Some (Some v))
  /\ pos tb' = pos tb + ByteSize (length v)
  /\ length (buf tb') = length (buf tb)
  /\ Desc tb' = Desc tb.
Proof.
  intros Hput. destruct (putField_shows _ _ _ _ _ Hput) as [Hs Hd].
  apply putField_Returns in Hput as (Hp & _ & Hi & ->). cbn in *.
  split; [done|]. split; [|split].
  - intros Hshort. by rewrite Hs, written_short.
  - by rewrite length_written.
  - by rewrite length_writeAt by done.
Qed.

(** X2. Within one cycle a [Put*] to field [j] leaves what every other
    field shows as it was, and the builder stays within the cycle. *)
Theorem putField_keeps_other_fields enc j v (tb tb' : TupleBuilder) :
  inCycle tb ->
  putField enc j v tb = Returns tb' ->
  inCycle tb' /\ forall i, i <> j -> shown tb' i = shown tb i.
Proof.
  intros Hcyc Hput. split.
  - by eapply putField_inCycle.
  - intros i Hne. by eapply putField_shows_others.
Qed.

Lemma putAll_shown (puts : list (Encoding * nat * bytes)) :
  forall tb0 tb : TupleBuilder,
    inCycle tb0 ->
    putAll puts tb0 = Returns tb ->
    Desc tb = Desc tb0 /\ length (fields tb) = length (fields tb0)
    /\ forall i, i < length (fields tb0) ->
         shown tb i = match lastPut puts i with
                      | Some w => Some (Some w)
                      | None => shown tb0 i
                      end.
Proof.
  induction puts as [|[[enc j] v] rest IH]; intros tb0 tb Hcyc Hall.
  - injection Hall as <-. done.
  - cbn [putAll] in Hall.
    destruct (putField enc j v tb0) as [tb1|] eqn:Hput; [|discriminate].
    pose proof (putField_inCycle _ _ _ _ _ Hcyc Hput) as Hcyc1.
    pose proof (fun i => putField_shows_others _ _ _ _ _ i Hcyc Hput) as Hother.
    destruct (putField_shows _ _ _ _ _ Hput) as [Hj Hdesc].
    pose proof (putField_Returns _ _ _ _ _ Hput) as (_ & _ & _ & E1).
    assert (length (fields tb1) = length (fields tb0)) as Hlen1
      by (rewrite E1; cbn; apply length_insert).
    destruct (IH tb1 tb Hcyc1 Hall) as (Hd & Hlen & Hshown).
    split; [congruence|]. split; [congruence|].
    intros i Hi. rewrite Hshown by lia. cbn [lastPut].
    destruct (lastPut rest i); [done|].
    destruct (decide (j = i)) as [->|Hne]; [done | by apply Hother].
Qed.

(** X3. What is put is what is built: after any run of puts on a new
    builder, [Build], when it returns, hands [NewTuple] for each field of
    the descriptor what the last put to it left there (the first [len]
    modulo 2^16 bytes of the value put), and nil for a field never put. *)
Theorem Build_of_puts MaxTupleDataSize MaxTupleFields
    (NewTuple : list slice -> Tuple) (desc : TupleDesc)
    (puts : list (Encoding * nat * bytes)) (tb tb' : TupleBuilder)
    (tup : Tuple) :
  Count desc <= MaxTupleFields ->
  putAll puts (NewTupleBuilder MaxTupleDataSize MaxTupleFields desc)
  = Returns tb ->
  Build NewTuple tb = Returns (tup, tb') ->
  tup = NewTuple (lastPut puts <$> seq 0 (Count desc)).
Proof.
  intros Hcount Hall Hbuild.
  destruct (putAll_shown puts _ tb (NewTupleBuilder_inCycle _ _ _) Hall)
    as (Hdesc & Hlen & Hshown).
  cbn in Hdesc, Hlen. rewrite length_replicate in Hlen.
  unfold Build in Hbuild.
  destruct (checkNonNull _ _ _); [|discriminate].
  destruct (decide _); [|discriminate].
  injection Hbuild as <- _. f_equal. rewrite Hdesc.
  apply list_eq. intros i.
  rewrite !list_lookup_fmap, lookup_take.
  destruct (decide (i < Count desc)) as [Hi|Hi].
  - rewrite lookup_seq_lt by done. cbn.
    specialize (Hshown i). cbn in Hshown.
    rewrite length_replicate in Hshown.
    specialize (Hshown ltac:(lia)).
    rewrite shown_NewTupleBuilder in Hshown by lia.
    unfold shown in Hshown. rewrite Hshown.
    by destruct (lastPut puts i).
  - rewrite lookup_seq_ge by lia. done.
Qed.

(** X4. A builder nothing was put to builds a tuple exactly for
    descriptors whose fields are all nullable: every field of the tuple is
    nil.  With a non-nullable field it panics. *)
Theorem Build_of_new_builder MaxTupleDataSize MaxTupleFields
    (NewTuple : list slice -> Tuple) (desc : TupleDesc) :
  Count desc <= MaxTupleFields ->
  (Forall (fun typ => Nullable typ = true) (Types desc) ->
   Build NewTuple (NewTupleBuilder MaxTupleDataSize MaxTupleFields desc)
   = Returns (NewTuple (replicate (Count desc) None),
              NewTupleBuilder MaxTupleDataSize MaxTupleFields desc))
  /\ (Exists (fun typ => Nullable typ = false) (Types desc) ->
      Build NewTuple (NewTupleBuilder MaxTupleDataSize MaxTupleFields desc)
      = Panics "cannot write NULL to non-NULL field").
Proof.
  intros Hcount. unfold Build, Count, NewTupleBuilder in *.
  cbn [Desc fields buf].
  set (fs := replicate MaxTupleFields (@None (nat * nat))).
  assert (forall types i,
            i + length types <= MaxTupleFields ->
            (Forall (fun typ => Nullable typ = true) types ->
             checkNonNull types i fs = Returns tt)
            /\ (Exists (fun typ => Nullable typ = false) types ->
                checkNonNull types i fs
                = Panics "cannot write NULL to non-NULL field")) as Hcheck.
  { induction types as [|typ rest IH]; intros i Hi; cbn in *.
    - split; [done|]. intros H. by apply Exists_nil in H.
    - destruct (IH (S i) ltac:(lia)) as [IH1 IH2]. split.
      + intros H. apply Forall_cons in H as [-> H]. by apply IH1.
      + intros H. destruct (Nullable typ) eqn:En.
        * apply Exists_cons in H as [H|H]; [congruence | by apply IH2].
        * unfold fs. by rewrite lookup_replicate_2 by lia. }
  destruct (Hcheck (Types desc) 0 ltac:(lia)) as [H1 H2]. split.
  - intros Hall. rewrite H1 by done.
    unfold fs. rewrite length_replicate.
    destruct (decide _); [|lia].
    rewrite take_replicate, fmap_replicate. cbn.
    by rewrite Nat.min_l by lia.
  - intros Hex. by rewrite H2.
Qed.

(** X5. After [Build] the old slices are still in place and [pos] is back
    at zero, so the next cycle's first [Put*] writes over what a field of
    the tuple before shows: a field of [n] bytes at offset zero that is not
    put again reads as the first [n] bytes of the buffer's head, which now
    holds what the put left there followed by the older bytes; when the
    put left at least [n] bytes, these are the first [n] bytes of the
    value put. *)
Theorem putField_after_Build_overwrites
    (NewTuple : list slice -> Tuple) enc (i j n : nat) (v : bytes)
    (tb0 tb tb' : TupleBuilder) (tup : Tuple) :
  Build NewTuple tb0 = Returns (tup, tb) ->
  fields tb0 !! i = Some (Some (0, n)) ->
  i <> j ->
  putField enc j v tb = Returns tb' ->
  shown tb' i
  = Some (Some (take n (take (ByteSize (length v)) v
                        ++ drop (ByteSize (length v)) (buf tb0))))
  /\ (n <= ByteSize (length v) -> shown tb' i = Some (Some (take n v))).
Proof.
  intros Hbuild Hi Hne Hput. unfold Build in Hbuild.
  destruct (checkNonNull _ _ _); [|discriminate].
  destruct (decide _); [|discriminate].
  injection Hbuild as _ <-.
  apply putField_Returns in Hput as (Hp & _ & Hj & ->).
  assert (shown
            {| Desc := Desc (Recycle tb0);
               buf := writeAt (pos (Recycle tb0)) (written v) (buf (Recycle tb0));
               pos := pos (Recycle tb0) + length (written v);
               fields := <[j:=Some (pos (Recycle tb0), length (written v))]>
                           (fields (Recycle tb0)) |} i
          = Some (Some (take n (written v
                                ++ drop (length (written v)) (buf tb0))))) as E.
  { unfold shown, Recycle, writeAt; cbn.
    rewrite list_lookup_insert_ne by done.
    unfold field in *. rewrite Hi. cbn.
    by rewrite drop_0, take_0, app_nil_l. }
  rewrite E. split.
  - by rewrite length_written.
  - intros Hn. f_equal. f_equal.
    rewrite take_app_le by (rewrite length_written; done).
    unfold written. rewrite take_take. f_equal.
    lia.
Qed.

(** C5, what the code does. [Build] tests the field slots, and a slot once
    filled is never emptied: [Recycle] leaves the slots as they are and a
    [Put*] only fills one.  So once a [Build] has returned, the [Build] of
    the next cycle returns too, whatever was put in between or not, and a
    field not put in between goes out with the slice of the tuple before. *)
Theorem Build_after_Build_checks_nothing MaxTupleFields
    (NewTuple : list slice -> Tuple)
    (puts : list (Encoding * nat * bytes)) (tb0 tb1 tb2 : TupleBuilder)
    (tup0 : Tuple) :
  wellFormed MaxTupleFields tb0 ->
  Build NewTuple tb0 = Returns (tup0, tb1) ->
  putAll puts tb1 = Returns tb2 ->
  Build NewTuple tb2
  = Returns (NewTuple (fieldBytes (buf tb2)
                         <$> take (Count (Desc tb0)) (fields tb2)),
             Recycle tb2)
  /\ forall i, lastPut puts i = None -> fields tb2 !! i = fields tb0 !! i.
Proof.
  intros [Hlen Hcnt] Hbuild Hall.
  assert (checkNonNull (Types (Desc tb0)) 0 (fields tb0) = Returns tt
          /\ tb1 = Recycle tb0) as [Hchk ->].
  { unfold Build in Hbuild.
    destruct (checkNonNull _ _ _) as [[]|]; [|discriminate].
    destruct (decide _); [|discriminate]. by injection Hbuild as _ <-. }
  assert (forall puts (ta tb : TupleBuilder),
            putAll puts ta = Returns tb ->
            Desc tb = Desc ta /\ length (fields tb) = length (fields ta)
            /\ (forall j f, fields ta !! j = Some (Some f) ->
                  exists f', fields tb !! j = Some (Some f'))
            /\ (forall i, lastPut puts i = None ->
                  fields tb !! i = fields ta !! i)) as Hkeeps.
  { clear. induction puts as [|[[enc j] v] rest IH]; intros ta tb Hall.
    - injection Hall as <-. repeat split; eauto.
    - cbn [putAll] in Hall.
      destruct (putField enc j v ta) as [t1|] eqn:Hput; [|discriminate].
      apply putField_Returns in Hput as (_ & _ & Hj & ->).
      destruct (IH _ _ Hall) as (Hd & Hl & Hsome & Hsame). cbn in *.
      rewrite length_insert in Hl.
      split; [done|]. split; [done|]. split.
      + intros k f Hk. destruct (decide (j = k)) as [->|Hne].
        * eapply Hsome. by apply list_lookup_insert_eq.
        * eapply Hsome. by rewrite list_lookup_insert_ne.
      + intros i Hi. destruct (lastPut rest i) eqn:Hrest; [discriminate|].
        destruct (decide (j = i)) as [->|Hne]; [discriminate|].
        rewrite Hsame by done. by rewrite list_lookup_insert_ne. }
  destruct (Hkeeps puts _ _ Hall) as (Hd & Hl & Hsome & Hsame).
  cbn in Hd, Hl, Hsome, Hsame. split; [|done].
  unfold Build. rewrite Hd.
  assert (checkNonNull (Types (Desc tb0)) 0 (fields tb2) = Returns tt) as ->.
  { apply checkNonNull_Returns. intros j typ Hj Hn.
    apply checkNonNull_Returns with (j := j) (typ := typ) in Hchk
      as [f Hf]; [|done|done].
    by apply Hsome in Hf. }
  destruct (decide _) as [_|Hbad]; [done|]. unfold Count in *. lia.
Qed.

(** *** PutField *)

(** A Go [interface{}] handed to [PutField], by its dynamic type: integers
    carry their numeric value, floats their bit pattern. *)
Inductive anyValue :=
| int8Value (z : Z) | uint8Value (z : Z)
| int16Value (z : Z) | uint16Value (z : Z)
| int32Value (z : Z) | uint32Value (z : Z)
| int64Value (z : Z) | uint64Value (z : Z)
| float32Value (bits : Z) | float64Value (bits : Z)
| stringValue (s : string) | bytesValue (b : slice)
| otherValue.

(** The numeric value of an integer-typed [interface{}]. *)
Definition integerValue (v : anyValue) : option Z :=
  match v with
  | int8Value z | uint8Value z | int16Value z | uint16Value z
  | int32Value z | uint32Value z | int64Value z | uint64Value z => Some z
  | _ => None
  end.

(** Go's conversion to an unsigned, respectively signed, integer type of
    [bits] bits: the value modulo [2^bits]. *)
Definition wrapUnsigned (bits z : Z) : Z := z mod 2 ^ bits.

Definition wrapSigned (bits z : Z) : Z :=
  (z + 2 ^ (bits - 1)) mod 2 ^ bits - 2 ^ (bits - 1).

(** [convInt]: [int(i)] for the eight integer types ([int] has 64 bits),
    a panic for every other type. *)
Definition convInt (v : anyValue) : outcome Z :=
  match integerValue v with
  | Some z => Returns (wrapSigned 64 z)
  | None => Panics "impossible conversion"
  end.

(** [convUint]: [uint(i)] for the eight integer types. *)
Definition convUint (v : anyValue) : outcome Z :=
  match integerValue v with
  | Some z => Returns (wrapUnsigned 64 z)
  | None => Panics "impossible conversion"
  end.

Definition andThen {A B} (o : outcome A) (k : A -> outcome B) : outcome B :=
  match o with
  | Returns a => k a
  | Panics msg => Panics msg
  end.

Section PutField.

(** The writers of the fixed-width encodings: each gives the bytes it
    fills the field's slice with. *)
Variable WriteInt8 WriteInt16 WriteInt32 WriteInt64 : Z -> bytes.
Variable WriteUint16 WriteUint32 WriteUint64 : Z -> bytes.
Variable WriteFloat32 WriteFloat64 : Z -> bytes.

Definition PutInt8 (i : nat) (v : Z) := putField Int8Enc i (WriteInt8 v).
Definition PutInt16 (i : nat) (v : Z) := putField Int16Enc i (WriteInt16 v).
Definition PutUint16 (i : nat) (v : Z) := putField Uint16Enc i (WriteUint16 v).
Definition PutInt32 (i : nat) (v : Z) := putField Int32Enc i (WriteInt32 v).
Definition PutUint32 (i : nat) (v : Z) := putField Uint32Enc i (WriteUint32 v).
Definition PutInt64 (i : nat) (v : Z) := putField Int64Enc i (WriteInt64 v).
Definition PutUint64 (i : nat) (v : Z) := putField Uint64Enc i (WriteUint64 v).
Definition PutFloat32 (i : nat) (v : Z) := putField Float32Enc i (WriteFloat32 v).
Definition PutFloat64 (i : nat) (v : Z) := putField Float64Enc i (WriteFloat64 v).

(** [PutField]: the switch on [tb.Desc.Types[i].Enc]. *)
Definition PutField (i : nat) (v : anyValue) (tb : TupleBuilder)
  : outcome TupleBuilder :=
  match Types (Desc tb) !! i with
  | None => Panics "index out of range"
  | Some typ =>
      match Enc typ with
      | Int8Enc => andThen (convInt v) (fun z => PutInt8 i (wrapSigned 8 z) tb)
      | Uint8Enc =>
          andThen (convUint v)
            (fun z => PutUint8 i (byteOfZ (wrapUnsigned 8 z)) tb)
      | Int16Enc => andThen (convInt v) (fun z => PutInt16 i (wrapSigned 16 z) tb)
      | Uint16Enc =>
          andThen (convUint v) (fun z => PutUint16 i (wrapUnsigned 16 z) tb)
      | Int24Enc => Panics "24 bit"
      | Uint24Enc => Panics "24 bit"
      | Int32Enc => andThen (convInt v) (fun z => PutInt32 i (wrapSigned 32 z) tb)
      | Uint32Enc =>
          andThen (convUint v) (fun z => PutUint32 i (wrapUnsigned 32 z) tb)
      | Int64Enc => andThen (convInt v) (fun z => PutInt64 i (wrapSigned 64 z) tb)
      | Uint64Enc =>
          andThen (convUint v) (fun z => PutUint64 i (wrapUnsigned 64 z) tb)
      | Float32Enc =>
          match v with
          | float32Value b => PutFloat32 i b tb
          | _ => Panics "interface conversion"
          end
      | Float64Enc =>
          match v with
          | float64Value b => PutFloat64 i b tb
          | _ => Panics "interface conversion"
          end
      | StringEnc =>
          match v with
          | stringValue s => PutString i s tb
          | _ => Panics "interface conversion"
          end
      | BytesEnc =>
          match v with
          | bytesValue b => PutBytes i (default [] b) tb
          | _ => Panics "interface conversion"
          end
      | OtherEnc _ => Panics "unknown encoding"
      end
  end.




End PutField.

Lemma wrapSigned_spec bits z :
  (0 < bits)%Z ->
  (- 2 ^ (bits - 1) <= wrapSigned bits z < 2 ^ (bits - 1))%Z
  /\ ((wrapSigned bits z - z) mod 2 ^ bits = 0)%Z.
Proof.
  intros Hb. unfold wrapSigned.
  assert (2 ^ bits = 2 * 2 ^ (bits - 1))%Z as E
    by (rewrite <- Z.pow_succ_r by lia; f_equal; lia).
  assert (0 < 2 ^ (bits - 1))%Z by (apply Z.pow_pos_nonneg; lia).
  pose proof (Z.mod_pos_bound (z + 2 ^ (bits - 1)) (2 ^ bits) ltac:(lia)).
  split; [lia|].
  rewrite (Z.mod_eq (z + 2 ^ (bits - 1)) (2 ^ bits)) by lia.
  replace (z + 2 ^ (bits - 1)
           - 2 ^ bits * ((z + 2 ^ (bits - 1)) / 2 ^ bits)
           - 2 ^ (bits - 1) - z)%Z
    with (- ((z + 2 ^ (bits - 1)) / 2 ^ bits) * 2 ^ bits)%Z by lia.
  apply Z.mod_mul. lia.
Qed.

Lemma wrapUnsigned_spec bits z :
  (0 < bits)%Z ->
  (0 <= wrapUnsigned bits z < 2 ^ bits)%Z
  /\ ((wrapUnsigned bits z - z) mod 2 ^ bits = 0)%Z.
Proof.
  intros Hb. unfold wrapUnsigned.
  assert (0 < 2 ^ bits)%Z by (apply Z.pow_pos_nonneg; lia).
  split; [by apply Z.mod_pos_bound|].
  rewrite (Z.mod_eq z (2 ^ bits)) by lia.
  replace (z - 2 ^ bits * (z / 2 ^ bits) - z)%Z
    with (- (z / 2 ^ bits) * 2 ^ bits)%Z by lia.
  apply Z.mod_mul. lia.
Qed.

(** Two integers of one residue class in a window of [2^bits] are equal. *)
Lemma same_residue_in_window lo bits a b :
  (0 < bits)%Z ->
  (lo <= a < lo + 2 ^ bits)%Z -> (lo <= b < lo + 2 ^ bits)%Z ->
  ((a - b) mod 2 ^ bits = 0)%Z -> a = b.
Proof.
  intros Hb Ha Hb' Hm.
  assert (0 < 2 ^ bits)%Z by (apply Z.pow_pos_nonneg; lia).
  apply Z.mod_divide in Hm; [|lia]. destruct Hm as [k Hk].
  assert (k = 0)%Z by nia. lia.
Qed.

Lemma residue_narrow bits a z :
  (0 < bits <= 64)%Z ->
  ((a - z) mod 2 ^ 64 = 0)%Z -> ((a - z) mod 2 ^ bits = 0)%Z.
Proof.
  intros Hb Hm. apply Z.mod_divide in Hm; [|lia]. destruct Hm as [k Hk].
  rewrite Hk.
  replace (2 ^ 64)%Z with (2 ^ (64 - bits) * 2 ^ bits)%Z
    by (rewrite <- Z.pow_add_r by lia; f_equal; lia).
  rewrite Z.mul_assoc. apply Z.mod_mul.
  apply Z.pow_nonzero; lia.
Qed.

(** X7. What [PutField] makes of an integer: [intN(convInt(v))] and
    [uintN(convUint(v))] give, for a value of any of the eight integer
    types, the value itself when it fits the [bits]-bit field, and
    otherwise the integer of the field's range that differs from it by a
    multiple of [2^bits]; nothing is refused. *)
Theorem convInt_convUint_narrow (v : anyValue) (z bits : Z) :
  integerValue v = Some z ->
  (0 < bits <= 64)%Z ->
  (exists c, convInt v = Returns c
     /\ (- 2 ^ (bits - 1) <= wrapSigned bits c < 2 ^ (bits - 1))%Z
     /\ ((wrapSigned bits c - z) mod 2 ^ bits = 0)%Z
     /\ ((- 2 ^ (bits - 1) <= z < 2 ^ (bits - 1))%Z -> wrapSigned bits c = z))
  /\ (exists c, convUint v = Returns c
        /\ (0 <= wrapUnsigned bits c < 2 ^ bits)%Z
        /\ ((wrapUnsigned bits c - z) mod 2 ^ bits = 0)%Z
        /\ ((0 <= z < 2 ^ bits)%Z -> wrapUnsigned bits c = z)).
Proof.
  intros Hv Hb. unfold convInt, convUint. rewrite Hv.
  assert (2 ^ bits = 2 * 2 ^ (bits - 1))%Z as E
    by (rewrite <- Z.pow_succ_r by lia; f_equal; lia).
  assert (0 < 2 ^ bits)%Z by (apply Z.pow_pos_nonneg; lia).
  split.
  - eexists; split; [reflexivity|].
    destruct (wrapSigned_spec 64 z ltac:(lia)) as [_ H64].
    destruct (wrapSigned_spec bits (wrapSigned 64 z) ltac:(lia)) as [Hr Hm].
    apply (residue_narrow bits) in H64; [|lia].
    assert (((wrapSigned bits (wrapSigned 64 z) - z) mod 2 ^ bits = 0)%Z) as Hz.
    { replace (wrapSigned bits (wrapSigned 64 z) - z)%Z
        with ((wrapSigned bits (wrapSigned 64 z) - wrapSigned 64 z)
              + (wrapSigned 64 z - z))%Z by lia.
      rewrite Z.add_mod, Hm, H64 by lia. reflexivity. }
    split; [done|]. split; [done|]. intros Hfit.
    apply (same_residue_in_window (- 2 ^ (bits - 1)) bits); first [lia | done].
  - eexists; split; [reflexivity|].
    destruct (wrapUnsigned_spec 64 z ltac:(lia)) as [_ H64].
    destruct (wrapUnsigned_spec bits (wrapUnsigned 64 z) ltac:(lia)) as [Hr Hm].
    apply (residue_narrow bits) in H64; [|lia].
    assert (((wrapUnsigned bits (wrapUnsigned 64 z) - z) mod 2 ^ bits = 0)%Z)
      as Hz.
    { replace (wrapUnsigned bits (wrapUnsigned 64 z) - z)%Z
        with ((wrapUnsigned bits (wrapUnsigned 64 z) - wrapUnsigned 64 z)
              + (wrapUnsigned 64 z - z))%Z by lia.
      rewrite Z.add_mod, Hm, H64 by lia. reflexivity. }
    split; [done|]. split; [done|]. intros Hfit.
    apply (same_residue_in_window 0 bits); first [lia | done].
Qed.

(** *** The builder on small inputs *)

Lemma putField_round_trip_witness :
  shown exampleBuilder 0 = Some (Some (take (ByteSize (length [x07])) [x07]))
  /\ (length [x07] < byteSizeModulus ->
      shown exampleBuilder 0 = Some (Some [x07]))
  /\ pos exampleBuilder = pos freshBuilder + ByteSize (length [x07])
  /\ length (buf exampleBuilder) = length (buf freshBuilder)
  /\ Desc exampleBuilder = Desc freshBuilder.
Proof.
  apply (putField_round_trip Uint8Enc 0 [x07] freshBuilder exampleBuilder).
  vm_compute. reflexivity.
Defined.

(** The value put holds 2^16 + 1 bytes: the put returns, and the field
    holds one byte. *)
Example PutBytes_of_65537_bytes :
  exists tb,
    PutBytes 1 (replicate (byteSizeModulus + 1) x09) freshBuilder = Returns tb
    /\ shown tb 1 = Some (Some [x09])
    /\ pos tb = 1.
Proof. eexists. split; [vm_compute; reflexivity|]. split; reflexivity. Qed.

Definition examplePuts : list (Encoding * nat * bytes) :=
  [(Uint8Enc, 0, [x07]); (BytesEnc, 1, [x01; x02])].

(** [freshBuilder] after [examplePuts]. *)
Definition twoPutsBuilder : TupleBuilder :=
  match putAll examplePuts freshBuilder with
  | Returns tb => tb
  | Panics _ => freshBuilder
  end.

Lemma exampleBuilder_inCycle : inCycle exampleBuilder.
Proof.
  apply (putField_inCycle Uint8Enc 0 [x07] freshBuilder).
  - apply NewTupleBuilder_inCycle.
  - vm_compute. reflexivity.
Qed.

(** Field 0 holds 7; the put to field 1 leaves it so. *)
Lemma putField_keeps_other_fields_witness :
  inCycle twoPutsBuilder
  /\ forall i, i <> 1 -> shown twoPutsBuilder i = shown exampleBuilder i.
Proof.
  apply (putField_keeps_other_fields BytesEnc 1 [x01; x02] exampleBuilder
           twoPutsBuilder).
  - exact exampleBuilder_inCycle.
  - vm_compute. reflexivity.
Defined.

Example twoPutsBuilder_shows :
  shown exampleBuilder 0 = Some (Some [x07])
  /\ shown twoPutsBuilder 0 = Some (Some [x07])
  /\ shown twoPutsBuilder 1 = Some (Some [x01; x02]).
Proof. split; [|split]; vm_compute; reflexivity. Qed.

Lemma Build_of_puts_witness :
  refNewTuple [Some [x07]; Some [x01; x02]]
  = refNewTuple (lastPut examplePuts <$> seq 0 (Count exampleDesc)).
Proof.
  apply (Build_of_puts 16 4 refNewTuple exampleDesc examplePuts
           twoPutsBuilder (Recycle twoPutsBuilder)).
  - cbn. lia.
  - vm_compute. reflexivity.
  - vm_compute. reflexivity.
Defined.

Definition nullableDesc : TupleDesc :=
  {| Types := [ {| Enc := BytesEnc; Nullable := true |};
                {| Enc := Int64Enc; Nullable := true |} ] |}.

Lemma Build_of_new_builder_witness :
  (Forall (fun typ => Nullable typ = true) (Types nullableDesc) ->
   Build refNewTuple (NewTupleBuilder 16 4 nullableDesc)
   = Returns (refNewTuple (replicate (Count nullableDesc) None),
              NewTupleBuilder 16 4 nullableDesc))
  /\ (Exists (fun typ => Nullable typ = false) (Types nullableDesc) ->
      Build refNewTuple (NewTupleBuilder 16 4 nullableDesc)
      = Panics "cannot write NULL to non-NULL field").
Proof.
  apply (Build_of_new_builder 16 4 refNewTuple nullableDesc).
  cbn. lia.
Defined.

(** [exampleBuilder] after [Build] and then [PutBytes(1, {9, 10})]. *)
Definition reusedBuilder : TupleBuilder :=
  match PutBytes 1 [x09; x0a] (Recycle exampleBuilder) with
  | Returns tb => tb
  | Panics _ => freshBuilder
  end.

Lemma putField_after_Build_overwrites_witness :
  shown reusedBuilder 0
  = Some (Some (take 1 (take (ByteSize (length [x09; x0a])) [x09; x0a]
                        ++ drop (ByteSize (length [x09; x0a]))
                             (buf exampleBuilder))))
  /\ (1 <= ByteSize (length [x09; x0a]) ->
      shown reusedBuilder 0 = Some (Some (take 1 [x09; x0a]))).
Proof.
  apply (putField_after_Build_overwrites refNewTuple BytesEnc 0 1 1
           [x09; x0a] exampleBuilder (Recycle exampleBuilder) reusedBuilder
           (refNewTuple [Some [x07]; None])).
  - vm_compute. reflexivity.
  - vm_compute. reflexivity.
  - lia.
  - vm_compute. reflexivity.
Defined.

(** [PutUint8(0, 7); Build; PutBytes(1, {9, 10}); Build]: the second
    [Build] returns, and the tuple's field 0, not NULL and not put since
    the first [Build], goes out as the byte 9. *)
Lemma Build_after_Build_checks_nothing_witness :
  Build refNewTuple reusedBuilder
  = Returns (refNewTuple (fieldBytes (buf reusedBuilder)
                            <$> take (Count (Desc exampleBuilder))
                                  (fields reusedBuilder)),
             Recycle reusedBuilder)
  /\ forall i, lastPut [(BytesEnc, 1, [x09; x0a])] i = None ->
       fields reusedBuilder !! i = fields exampleBuilder !! i.
Proof.
  apply (Build_after_Build_checks_nothing 4 refNewTuple
           [(BytesEnc, 1, [x09; x0a])] exampleBuilder
           (Recycle exampleBuilder) reusedBuilder
           (refNewTuple [Some [x07]; None])).
  - split; [reflexivity | vm_compute; lia].
  - vm_compute. reflexivity.
  - vm_compute. reflexivity.
Defined.

Example Build_of_reusedBuilder :
  Build refNewTuple reusedBuilder
  = Returns (refNewTuple [Some [x09]; Some [x09; x0a]], Recycle reusedBuilder)
  /\ lastPut [(BytesEnc, 1, [x09; x0a])] 0 = None
  /\ (Nullable <$> Types exampleDesc !! 0) = Some false.
Proof. split; [|split]; vm_compute; reflexivity. Qed.



(** A field of an encoding the switch does not name. *)
Example PutField_unknown_encoding :
  PutField (putLittleEndian 1) (putLittleEndian 2) (putLittleEndian 4)
    (putLittleEndian 8) (putLittleEndian 2) (putLittleEndian 4)
    (putLittleEndian 8) (putLittleEndian 4) (putLittleEndian 8)
    0 (int8Value 1)
    (NewTupleBuilder 16 4
       {| Types := [ {| Enc := OtherEnc 0; Nullable := false |} ] |})
  = Panics "unknown encoding".
Proof. reflexivity. Qed.

Lemma convInt_convUint_narrow_witness :
  (exists c, convInt (uint8Value 200) = Returns c
     /\ (- 2 ^ (8 - 1) <= wrapSigned 8 c < 2 ^ (8 - 1))%Z
     /\ ((wrapSigned 8 c - 200) mod 2 ^ 8 = 0)%Z
     /\ ((- 2 ^ (8 - 1) <= 200 < 2 ^ (8 - 1))%Z -> wrapSigned 8 c = 200%Z))
  /\ (exists c, convUint (uint8Value 200) = Returns c
        /\ (0 <= wrapUnsigned 8 c < 2 ^ 8)%Z
        /\ ((wrapUnsigned 8 c - 200) mod 2 ^ 8 = 0)%Z
        /\ ((0 <= 200 < 2 ^ 8)%Z -> wrapUnsigned 8 c = 200%Z)).
Proof.
  apply (convInt_convUint_narrow (uint8Value 200) 200 8).
  - reflexivity.
  - lia.
Defined.

(** A uint8 of 200 put to an int8 field is stored as -56. *)
Example convInt_wraps_uint8_200 :
  andThen (convInt (uint8Value 200)) (fun z => Returns (wrapSigned 8 z))
  = Returns (-56)%Z.
Proof. reflexivity. Qed.

End val.

(** ** package prolly *)
Module prolly.

(** *** Node meta-values *)

(** [hash.Hash] is a [[20]byte]. *)
Definition Hash := bytes.
Definition hashByteLen : nat := 20.

(** Modelled from the spec: [hash.New] belongs to package hash; a hash is a
    20-byte opaque identifier, and [New] makes one of the bytes it is
    given. *)
Definition hashNew (s : slice) : Hash := default [] s.

Definition metaValue := val.Tuple.

Definition metaValueCountIdx : nat := 0.
Definition metaValueRefIdx : nat := 1.

Section MetaValue.

(** The tuple constructor and field accessor of package val. *)
Variable NewTuple : list slice -> val.Tuple.
Variable GetField : val.Tuple -> nat -> slice.

(** [var cnt [6]byte; WriteUint48(cnt[:], count); NewTuple(pool, cnt[:], ref[:])] *)
Definition newMetaValue (count : Z) (ref : Hash) : metaValue :=
  NewTuple [Some (val.WriteUint48 count); Some ref].

Definition GetCumulativeCount (mt : metaValue) : Z :=
  val.ReadUint48 (GetField mt metaValueCountIdx).

Definition GetRef (mt : metaValue) : Hash :=
  hashNew (GetField mt metaValueRefIdx).

(** What a meta-value needs of the tuple codec: a tuple made of a 6-byte
    and a 20-byte field gives both back. *)
Definition metaFieldsRoundTrip : Prop :=
  forall (cnt : bytes) (ref : Hash),
    length cnt = val.uint48Size -> length ref = hashByteLen ->
    GetField (NewTuple [Some cnt; Some ref]) metaValueCountIdx = Some cnt
    /\ GetField (NewTuple [Some cnt; Some ref]) metaValueRefIdx = Some ref.

(** C8, as the code has it. A meta-value gives back the subtree count and
    the child hash it was made of, for every count below 2^48 (the six
    bytes the count is written to) and every 20-byte hash. *)
Theorem metaValue_roundtrip (count : Z) (ref : Hash) :
  metaFieldsRoundTrip ->
  (0 <= count < 2 ^ 48)%Z ->
  length ref = hashByteLen ->
  GetCumulativeCount (newMetaValue count ref) = count
  /\ GetRef (newMetaValue count ref) = ref.
Proof.
  intros Hcodec Hcount Href.
  assert (length (val.WriteUint48 count) = val.uint48Size) as Hlen
    by apply val.length_putLittleEndian.
  destruct (Hcodec (val.WriteUint48 count) ref Hlen Href) as [Hc Hr].
  unfold GetCumulativeCount, GetRef, newMetaValue. rewrite Hc, Hr.
  split; [|done].
  rewrite val.ReadUint48_WriteUint48. apply Z.mod_small. lia.
Qed.

End MetaValue.

Definition zeroHash : Hash := replicate hashByteLen x00.

Lemma refCodec_metaFieldsRoundTrip :
  metaFieldsRoundTrip val.refNewTuple val.refGetField.
Proof.
  intros cnt ref _ _; split; by apply val.refGetField_refNewTuple.
Qed.

Lemma metaValue_roundtrip_witness :
  GetCumulativeCount val.refGetField
    (newMetaValue val.refNewTuple 1000 zeroHash) = 1000%Z
  /\ GetRef val.refGetField (newMetaValue val.refNewTuple 1000 zeroHash)
     = zeroHash.
Proof.
  apply (metaValue_roundtrip val.refNewTuple val.refGetField 1000 zeroHash).
  - exact refCodec_metaFieldsRoundTrip.
  - lia.
  - reflexivity.
Defined.

(** C8, as stated, fails: 2^48 is a uint64 subtree count, and the
    meta-value made of it reports a count of 0. *)
Lemma metaValue_count_above_48_bits :
  (0 <= 2 ^ 48 < 2 ^ 64)%Z
  /\ length zeroHash = 20
  /\ GetCumulativeCount val.refGetField
       (newMetaValue val.refNewTuple (2 ^ 48) zeroHash) = 0%Z
  /\ GetCumulativeCount val.refGetField
       (newMetaValue val.refNewTuple (2 ^ 48) zeroHash) <> (2 ^ 48)%Z.
Proof.
  split; [lia|]. split; [reflexivity|].
  assert (GetCumulativeCount val.refGetField
            (newMetaValue val.refNewTuple (2 ^ 48) zeroHash) = 0%Z) as E
    by (vm_compute; reflexivity).
  split; [exact E | rewrite E; lia].
Qed.

(** *** Keys and their order *)

Definition nodeItem := slice.

(** [compareFn]: negative, zero or positive, as Go comparators are. *)
Definition compareFn := nodeItem -> nodeItem -> Z.

(** What the map code expects of a key comparator: a total preorder. *)
Record keyOrder (cmp : compareFn) : Prop := {
  cmp_antisym : forall a b, Z.sgn (cmp a b) = (- Z.sgn (cmp b a))%Z;
  cmp_trans : forall a b c,
    (cmp a b <= 0)%Z -> (cmp b c <= 0)%Z -> (cmp a c <= 0)%Z
}.

(** Go's [bytes.Compare]: lexicographic, a nil slice reads as empty. *)
Fixpoint compareBytes (a b : bytes) : Z :=
  match a, b with
  | [], [] => 0
  | [], _ :: _ => -1
  | _ :: _, [] => 1
  | x :: a', y :: b' =>
      match N.compare (Byte.to_N x) (Byte.to_N y) with
      | Lt => -1
      | Gt => 1
      | Eq => compareBytes a' b'
      end
  end.

Definition bytesCompare (a b : slice) : Z :=
  compareBytes (default [] a) (default [] b).

(** Go's [bytes.Equal]. *)
Definition bytesEqual (a b : slice) : bool := (bytesCompare a b =? 0)%Z.

Lemma compareBytes_antisym a b :
  Z.sgn (compareBytes a b) = (- Z.sgn (compareBytes b a))%Z.
Proof.
  revert b; induction a as [|x a IH]; intros [|y b]; simpl; try done.
  rewrite (N.compare_antisym (Byte.to_N x) (Byte.to_N y)).
  destruct (N.compare (Byte.to_N x) (Byte.to_N y)); simpl; auto.
Qed.

Lemma compareBytes_trans a b c :
  (compareBytes a b <= 0)%Z -> (compareBytes b c <= 0)%Z ->
  (compareBytes a c <= 0)%Z.
Proof.
  revert b c; induction a as [|x a IH]; intros [|y b] [|z c]; simpl;
    try lia.
  destruct (N.compare_spec (Byte.to_N x) (Byte.to_N y)) as [Exy|Hxy|Hxy];
    destruct (N.compare_spec (Byte.to_N y) (Byte.to_N z)) as [Eyz|Hyz|Hyz];
    destruct (N.compare_spec (Byte.to_N x) (Byte.to_N z)) as [Exz|Hxz|Hxz];
    try lia; eauto.
Qed.

Lemma bytesCompare_keyOrder : keyOrder bytesCompare.
Proof.
  split; unfold bytesCompare; intros.
  - apply compareBytes_antisym.
  - eapply compareBytes_trans; eauto.
Qed.

Section KeyOrderFacts.
Variable cmp : compareFn.
Hypothesis Hcmp : keyOrder cmp.

Lemma cmp_refl a : cmp a a = 0%Z.
Proof. pose proof (cmp_antisym cmp Hcmp a a). lia. Qed.

Lemma cmp_flip_lt a b : (cmp a b < 0)%Z <-> (0 < cmp b a)%Z.
Proof. pose proof (cmp_antisym cmp Hcmp a b). lia. Qed.

Lemma cmp_flip_eq a b : cmp a b = 0%Z <-> cmp b a = 0%Z.
Proof. pose proof (cmp_antisym cmp Hcmp a b). lia. Qed.

(** A key equal to [a] lies below everything [a] lies below. *)
Lemma cmp_eq_lt a b c :
  cmp a b = 0%Z -> (cmp a c < 0)%Z -> (0 < cmp c b)%Z.
Proof.
  intros Hab Hac.
  destruct (Z_lt_le_dec 0 (cmp c b)) as [|Hcb]; [done|].
  apply cmp_flip_eq in Hab.
  assert (cmp c a <= 0)%Z
    by (apply (cmp_trans cmp Hcmp c b a); lia).
  apply cmp_flip_lt in Hac. lia.
Qed.

End KeyOrderFacts.

(** *** Maps, the overlay and the mutable map *)

(** Modelled from the spec: the persistent [Map] (root, descriptors, node
    store) is defined in another file of the package.  Two maps with the
    same content are observably identical, so a map is its pairs in
    ascending key order. *)
Definition Map := list (val.Tuple * val.Tuple).

(** [maxPending = 64 * 1024] *)
Definition maxPending : Z := 64 * 1024.

(** Modelled from the spec: the skip list belongs to package skip; it is
    an ordered map from key tuple to value tuple or tombstone (a nil
    value), held here in ascending key order. *)
Definition skipList := list (val.Tuple * val.Tuple).

(** The overlay of a mutable map. *)
Record memoryMap := { list_ : skipList }.

Record MutableMap := { m : Map; overlay : memoryMap }.

Section Maps.

(** The comparator the key descriptor induces ([Map.compareKeys]). *)
Variable compareKeys : compareFn.

(** Modelled from the spec: a [Map]'s keys are strictly increasing. *)
Fixpoint ascending (pairs : list (val.Tuple * val.Tuple)) : bool :=
  match pairs with
  | [] => true
  | (k1, _) :: rest =>
      match rest with
      | [] => true
      | (k2, _) :: _ => (compareKeys k1 k2 <? 0)%Z && ascending rest
      end
  end.

(** Modelled from the spec: cursor [seek(key)] positions at the smallest
    item at or above [key], or past the end. *)
Fixpoint seek (pairs : list (val.Tuple * val.Tuple)) (key : val.Tuple)
  : option (val.Tuple * val.Tuple) :=
  match pairs with
  | [] => None
  | (k, v) :: rest =>
      if (compareKeys k key <? 0)%Z then seek rest key else Some (k, v)
  end.

(** Modelled from the spec: whether the cursor sought to [key] stands at
    the exact key. *)
Definition present (pairs : list (val.Tuple * val.Tuple)) (key : val.Tuple)
  : bool :=
  match seek pairs key with
  | Some (k, _) => (compareKeys k key =? 0)%Z
  | None => false
  end.

(** Modelled from the spec: [Map.Get] passes the pair keyed by [key] to
    the callback, and a nil pair when the key is not in the map. *)
Definition Map_Get {R} (mp : Map) (key : val.Tuple)
    (cb : val.Tuple -> val.Tuple -> R) : R :=
  match seek mp key with
  | Some (k, v) => if (compareKeys k key =? 0)%Z then cb k v else cb None None
  | None => cb None None
  end.

(** Modelled from the spec: [Map.Count], the number of pairs. *)
Definition Map_Count (mp : Map) : Z := Z.of_nat (length mp).

(** Modelled from the spec: the skip list's [Get] returns the value stored
    under [key] and whether there is one. *)
Definition skipGet (l : skipList) (key : val.Tuple) : val.Tuple * bool :=
  match seek l key with
  | Some (k, v) =>
      if (compareKeys k key =? 0)%Z then (v, true) else (None, false)
  | None => (None, false)
  end.

(** Modelled from the spec: the skip list's [Put] stores [value] under
    [key], in key order, replacing what was stored there. *)
Fixpoint skipPut (l : skipList) (key value : val.Tuple) : skipList :=
  match l with
  | [] => [(key, value)]
  | (k, v) :: rest =>
      if (compareKeys k key <? 0)%Z then (k, v) :: skipPut rest key value
      else if (compareKeys k key =? 0)%Z then (key, value) :: rest
      else (key, value) :: (k, v) :: rest
  end.

Definition newMemoryMap : memoryMap := {| list_ := [] |}.

(** Modelled from the spec: the overlay's [Put] stages an insert or update
    under [key], or a delete when [value] is the tombstone.  No capacity
    check is modelled: testBulkInserts puts 100,000 edits, more than
    [maxPending], into one overlay and finds every one of them in the
    materialized map. *)
Definition memoryMap_Put (mm : memoryMap) (key value : val.Tuple)
  : memoryMap :=
  {| list_ := skipPut (list_ mm) key value |}.

(** Modelled from the spec: the overlay's pending edits in ascending key
    order. *)
Definition mutations (mm : memoryMap) : list (val.Tuple * val.Tuple) :=
  list_ mm.

(** Modelled from the spec: the tail of materialization when the cursor is
    past the end; tombstones over absent keys are ignored. *)
Fixpoint drainEdits (edits : list (val.Tuple * val.Tuple)) : Map :=
  match edits with
  | [] => []
  | (k, v) :: rest =>
      if isNil v then drainEdits rest else (k, v) :: drainEdits rest
  end.

(** Modelled from the spec: [materializeMutations] walks the tree cursor and
    the edits in ascending order together and emits the new map's pairs.
    - cursor key below edit key: emit the cursor's pair, advance the cursor;
    - cursor key above edit key: emit the edit unless it is a tombstone,
      advance the edits;
    - equal keys: skip both on a tombstone, else emit the edit; advance both;
    - drain the remaining side. *)
Fixpoint materializeMutations (mp : Map)
    (edits : list (val.Tuple * val.Tuple)) : Map :=
  let fix walkEdits (edits : list (val.Tuple * val.Tuple)) : Map :=
    match mp, edits with
    | [], _ => drainEdits edits
    | _, [] => mp
    | (ck, cv) :: mp', (ek, ev) :: edits' =>
        if (compareKeys ck ek <? 0)%Z then
          (ck, cv) :: materializeMutations mp' edits
        else if (0 <? compareKeys ck ek)%Z then
          if isNil ev then walkEdits edits' else (ek, ev) :: walkEdits edits'
        else
          if isNil ev then materializeMutations mp' edits'
          else (ek, ev) :: materializeMutations mp' edits'
    end
  in walkEdits edits.

Definition newMutableMap (mp : Map) : MutableMap :=
  {| m := mp; overlay := newMemoryMap |}.

(** [MutableMap.Map] materializes the pending mutations. *)
Definition MutableMap_Map (mut : MutableMap) : Map :=
  materializeMutations (m mut) (mutations (overlay mut)).

(** [MutableMap.Put]: [mut.overlay.Put(key, value); return nil]. *)
Definition MutableMap_Put (mut : MutableMap) (key value : val.Tuple)
  : MutableMap * error :=
  ({| m := m mut; overlay := memoryMap_Put (overlay mut) key value |}, None).

(** [MutableMap.Get]: the overlay first; a nil value there is a pending
    delete and the callback gets a nil pair. *)
Definition MutableMap_Get {R} (mut : MutableMap) (key : val.Tuple)
    (cb : val.Tuple -> val.Tuple -> R) : R :=
  let '(value, ok) := skipGet (list_ (overlay mut)) key in
  if ok then
    let key' := if isNil value then None else key in
    cb key' value
  else Map_Get (m mut) key cb.

(** [MutableMap.Has]: [ok = key != nil] inside the callback of [Get]. *)
Definition MutableMap_Has (mut : MutableMap) (key : val.Tuple)
  : bool * error :=
  MutableMap_Get mut key (fun key _ => (negb (isNil key), None)).

(** The count of the map after one edit, from the count before. *)
Definition countAfter (before : Z) (value : val.Tuple) (wasPresent : bool)
  : Z :=
  match value, wasPresent with
  | Some _, false => before + 1
  | Some _, true => before
  | None, true => before - 1
  | None, false => before
  end.

Lemma materializeMutations_no_edits (mp : Map) :
  materializeMutations mp [] = mp.
Proof. by destruct mp as [|[ck cv] mp']. Qed.

Lemma materializeMutations_one_edit ck cv (mp : Map) k v :
  materializeMutations ((ck, cv) :: mp) [(k, v)] =
  if (compareKeys ck k <? 0)%Z then
    (ck, cv) :: materializeMutations mp [(k, v)]
  else if (0 <? compareKeys ck k)%Z then
    if isNil v then (ck, cv) :: mp else (k, v) :: (ck, cv) :: mp
  else
    if isNil v then mp else (k, v) :: mp.
Proof.
  pose proof (materializeMutations_no_edits mp) as E.
  simpl in *.
  destruct (compareKeys ck k <? 0)%Z; [done|].
  destruct (0 <? compareKeys ck k)%Z; [done|].
  destruct (isNil v); by rewrite E.
Qed.

Lemma ascending_tail p (rest : list (val.Tuple * val.Tuple)) :
  ascending (p :: rest) = true -> ascending rest = true.
Proof.
  destruct p as [k1 v1]. destruct rest as [|[k2 v2] rest]; [done|].
  cbn [ascending]. intros H. apply andb_true_iff in H. tauto.
Qed.

Lemma Map_Get_head R (mp : Map) k v (cb : val.Tuple -> val.Tuple -> R) :
  compareKeys k k = 0%Z -> Map_Get ((k, v) :: mp) k cb = cb k v.
Proof. intros E. unfold Map_Get. cbn [seek]. rewrite E. cbn. by rewrite E. Qed.

Lemma Map_Get_above R (mp : Map) ck cv k (cb : val.Tuple -> val.Tuple -> R) :
  (0 < compareKeys ck k)%Z -> Map_Get ((ck, cv) :: mp) k cb = cb None None.
Proof.
  intros H. unfold Map_Get. simpl.
  destruct (Z.ltb_spec (compareKeys ck k) 0); [lia|].
  destruct (Z.eqb_spec (compareKeys ck k) 0); [lia|done].
Qed.

Section Materialize.
Hypothesis Hcmp : keyOrder compareKeys.

Lemma Map_Get_past_equal R (mp : Map) ck cv k
    (cb : val.Tuple -> val.Tuple -> R) :
  ascending ((ck, cv) :: mp) = true -> compareKeys ck k = 0%Z ->
  Map_Get mp k cb = cb None None.
Proof.
  intros Hasc E. destruct mp as [|[k1 v1] mp]; [done|].
  apply Map_Get_above. apply (cmp_eq_lt compareKeys Hcmp ck k k1 E).
  cbn [ascending] in Hasc. apply andb_true_iff in Hasc.
  destruct Hasc as [Hlt _]. by apply Z.ltb_lt.
Qed.

Lemma materializeMutations_one (base : Map) (k v : val.Tuple) :
  ascending base = true ->
  Map_Get (materializeMutations base [(k, v)]) k (fun _ value => value) = v
  /\ Map_Count (materializeMutations base [(k, v)])
     = countAfter (Map_Count base) v (present base k).
Proof.
  pose proof (cmp_refl compareKeys Hcmp k) as Hkk.
  induction base as [|[ck cv] rest IH]; intros Hasc.
  - destruct v as [x|]; simpl; [|done].
    split; [by apply Map_Get_head | done].
  - rewrite materializeMutations_one_edit.
    specialize (IH (ascending_tail _ _ Hasc)). destruct IH as [IHget IHcnt].
    unfold present, Map_Count in *. cbn [seek length].
    destruct (Z.ltb_spec (compareKeys ck k) 0) as [Hlt|Hge].
    + split.
      * unfold Map_Get in *. cbn [seek].
        by destruct (Z.ltb_spec (compareKeys ck k) 0); [|lia].
      * cbn [length]. rewrite !Nat2Z.inj_succ, IHcnt.
        destruct v, (match seek rest k with
                     | Some (k0, _) => (compareKeys k0 k =? 0)%Z
                     | None => false
                     end); simpl; lia.
    + destruct (Z.ltb_spec 0 (compareKeys ck k)) as [Hgt|Hle].
      * destruct (Z.eqb_spec (compareKeys ck k) 0) as [|_]; [lia|].
        destruct v as [x|]; cbn [isNil countAfter length].
        -- split; [by apply Map_Get_head | lia].
        -- split; [by apply Map_Get_above | done].
      * assert (compareKeys ck k = 0%Z) as E by lia.
        destruct (Z.eqb_spec (compareKeys ck k) 0) as [_|]; [|lia].
        destruct v as [x|]; cbn [isNil countAfter length].
        -- split; [by apply Map_Get_head | lia].
        -- split; [by eapply Map_Get_past_equal | lia].
Qed.

Lemma skipGet_skipPut (l : skipList) (key value : val.Tuple) :
  skipGet (skipPut l key value) key = (value, true).
Proof.
  pose proof (cmp_refl compareKeys Hcmp key) as Hkk.
  unfold skipGet.
  induction l as [|[k v] rest IH]; cbn [skipPut seek].
  - rewrite Hkk. cbn. by rewrite Hkk.
  - destruct (Z.ltb_spec (compareKeys k key) 0) as [Hlt|Hge].
    + cbn [seek]. by destruct (Z.ltb_spec (compareKeys k key) 0); [|lia].
    + destruct (compareKeys k key =? 0)%Z; cbn [seek];
        rewrite Hkk; cbn; by rewrite Hkk.
Qed.

(** A mutable map reads its own writes: after [Put], [Get] hands the
    callback the value put, and a nil pair after a tombstone. *)
Lemma MutableMap_Get_after_Put R (mut : MutableMap) (key value : val.Tuple)
    (cb : val.Tuple -> val.Tuple -> R) :
  MutableMap_Get (fst (MutableMap_Put mut key value)) key cb
  = cb (if isNil value then None else key) value.
Proof.
  unfold MutableMap_Get, MutableMap_Put, memoryMap_Put. cbn.
  by rewrite skipGet_skipPut.
Qed.

(** C3. One [Put] on a fresh mutable map over [base], then [Map]: the
    materialized map's [Get] hands the callback the value put (nil for a
    tombstone), and its count is the base's plus one for an insert, the
    same for an update, minus one for a delete of a present key, and the
    same for a delete of an absent key. *)
Theorem Put_then_Map (base : Map) (k v : val.Tuple) :
  ascending base = true ->
  Map_Get (MutableMap_Map (fst (MutableMap_Put (newMutableMap base) k v)))
    k (fun _ value => value) = v
  /\ Map_Count (MutableMap_Map (fst (MutableMap_Put (newMutableMap base) k v)))
     = countAfter (Map_Count base) v (present base k).
Proof. intros Hasc. by apply materializeMutations_one. Qed.

(** C4. [Get] and [Has] answer from the overlay when it holds an entry for
    the key, whatever the base map holds: a tombstone gives the callback a
    nil pair and makes [Has] false; a value is handed to the callback with
    the key as it is, and [Has] is true (for a key that is not nil itself).
    Only when the overlay has no entry is the base asked, and then [Get]
    and [Has] answer as the base does.  After [Put(key, value)] the overlay
    holds this entry for the key. *)
Theorem MutableMap_Get_overlay_first
    (ov : memoryMap) (key : val.Tuple) (base : Map) :
  (skipGet (list_ ov) key = (None, true) ->
   (forall R (cb : val.Tuple -> val.Tuple -> R),
      MutableMap_Get {| m := base; overlay := ov |} key cb = cb None None)
   /\ MutableMap_Has {| m := base; overlay := ov |} key = (false, None))
  /\ (forall value : bytes,
      skipGet (list_ ov) key = (Some value, true) ->
      (forall R (cb : val.Tuple -> val.Tuple -> R),
         MutableMap_Get {| m := base; overlay := ov |} key cb
         = cb key (Some value))
      /\ MutableMap_Has {| m := base; overlay := ov |} key
         = (negb (isNil key), None))
  /\ (forall value : val.Tuple,
      skipGet (list_ ov) key = (value, false) ->
      (forall R (cb : val.Tuple -> val.Tuple -> R),
         MutableMap_Get {| m := base; overlay := ov |} key cb
         = Map_Get base key cb)
      /\ MutableMap_Has {| m := base; overlay := ov |} key
         = Map_Get base key (fun k _ => (negb (isNil k), None)))
  /\ (forall value : val.Tuple,
      skipGet
        (list_ (overlay (fst (MutableMap_Put {| m := base; overlay := ov |}
                                key value))))
        key
      = (value, true)).
Proof.
  unfold MutableMap_Has, MutableMap_Get; cbn [m overlay].
  split; [|split; [|split]].
  - intros E. rewrite E. done.
  - intros value E. rewrite E. done.
  - intros value E. rewrite E. done.
  - intros value. apply skipGet_skipPut.
Qed.

End Materialize.

(** C7, as the code has it. [Put] returns a nil error for every mutable
    map, key and value. *)
Theorem MutableMap_Put_returns_nil (mut : MutableMap) (key value : val.Tuple) :
  snd (MutableMap_Put mut key value) = None.
Proof. reflexivity. Qed.

End Maps.

(** *** Maps keyed by raw bytes *)

Definition key1 (b : byte) : val.Tuple := Some [b].

Definition exampleBase : Map :=
  [(key1 x01, Some [x0a]); (key1 x03, Some [x1e])].

Lemma Put_then_Map_witness :
  Map_Get bytesCompare
    (MutableMap_Map bytesCompare
       (fst (MutableMap_Put bytesCompare (newMutableMap exampleBase)
               (key1 x02) (Some [x14]))))
    (key1 x02) (fun _ value => value) = Some [x14]
  /\ Map_Count
       (MutableMap_Map bytesCompare
          (fst (MutableMap_Put bytesCompare (newMutableMap exampleBase)
                  (key1 x02) (Some [x14]))))
     = countAfter (Map_Count exampleBase) (Some [x14])
         (present bytesCompare exampleBase (key1 x02)).
Proof.
  apply (Put_then_Map bytesCompare bytesCompare_keyOrder exampleBase
           (key1 x02) (Some [x14])).
  reflexivity.
Defined.

Definition threeKeys : Map :=
  [(key1 x01, Some [x0a]); (key1 x02, Some [x14]); (key1 x03, Some [x1e])].

(** Over [threeKeys]: key 1 is deleted and key 2 is set to 99. *)
Definition stagedMap : MutableMap :=
  fst (MutableMap_Put bytesCompare
         (fst (MutableMap_Put bytesCompare (newMutableMap threeKeys)
                 (key1 x01) None))
         (key1 x02) (Some [x63])).

(** Key 1, deleted in the overlay and held by the base, is absent; key 2
    has the overlay's value, not the base's; key 3 is answered by the
    base; key 4 is in neither. *)
Lemma MutableMap_Get_overlay_first_witness :
  (MutableMap_Get bytesCompare stagedMap (key1 x01) pair = (None, None)
   /\ MutableMap_Has bytesCompare stagedMap (key1 x01) = (false, None))
  /\ (MutableMap_Get bytesCompare stagedMap (key1 x02) pair
      = (key1 x02, Some [x63])
      /\ MutableMap_Has bytesCompare stagedMap (key1 x02) = (true, None))
  /\ (MutableMap_Get bytesCompare stagedMap (key1 x03) pair
      = (key1 x03, Some [x1e])
      /\ MutableMap_Has bytesCompare stagedMap (key1 x03) = (true, None))
  /\ MutableMap_Has bytesCompare stagedMap (key1 x04) = (false, None).
Proof.
  pose proof (fun key =>
                MutableMap_Get_overlay_first bytesCompare bytesCompare_keyOrder
                  (overlay stagedMap) key threeKeys) as H.
  split; [|split; [|split]].
  - destruct (H (key1 x01)) as (H1 & _).
    destruct (H1 eq_refl) as [G Hhas]. split; [exact (G _ pair) | exact Hhas].
  - destruct (H (key1 x02)) as (_ & H2 & _).
    destruct (H2 [x63] eq_refl) as [G Hhas].
    split; [exact (G _ pair) | exact Hhas].
  - destruct (H (key1 x03)) as (_ & _ & H3 & _).
    destruct (H3 None eq_refl) as [G Hhas].
    split; [exact (G _ pair) | exact Hhas].
  - destruct (H (key1 x04)) as (_ & _ & H3 & _).
    destruct (H3 None eq_refl) as [G Hhas]. exact Hhas.
Defined.

(** The [n] two-byte big-endian keys from [i] on, each with a one-byte
    value. *)
Fixpoint twoByteEdits (n : nat) (i : Z) : skipList :=
  match n with
  | O => []
  | S n' =>
      (Some [val.byteOfZ (i / 256); val.byteOfZ i], Some [x00])
        :: twoByteEdits n' (i + 1)
  end.

(** An overlay holding [maxPending] pending edits, keyed 0 .. 65535. *)
Definition fullOverlay : memoryMap :=
  {| list_ := twoByteEdits (Z.to_nat maxPending) 0 |}.

Definition fullMutableMap : MutableMap :=
  {| m := []; overlay := fullOverlay |}.

(** C7, as stated, fails: the overlay holds [maxPending] edits, the key is
    not among them, and [Put] returns nil; the edit is staged like any
    other. *)
Lemma MutableMap_Put_on_full_overlay :
  Z.of_nat (length (list_ (overlay fullMutableMap))) = maxPending
  /\ ascending bytesCompare (list_ (overlay fullMutableMap)) = true
  /\ skipGet bytesCompare (list_ (overlay fullMutableMap))
       (Some [x00; x00; x00]) = (None, false)
  /\ snd (MutableMap_Put bytesCompare fullMutableMap
            (Some [x00; x00; x00]) (Some [x01])) = None
  /\ skipGet bytesCompare
       (list_ (overlay (fst (MutableMap_Put bytesCompare fullMutableMap
                               (Some [x00; x00; x00]) (Some [x01])))))
       (Some [x00; x00; x00]) = (Some [x01], true).
Proof. split; [|split; [|split; [|split]]]; vm_compute; reflexivity. Qed.

(** *** Three-way merge *)

Inductive DiffType := AddedDiff | ModifiedDiff | RemovedDiff.

#[export] Instance DiffType_eq_dec : EqDecision DiffType.
Proof. solve_decision. Defined.

(** Modelled from the spec: the [Diff] a differ yields, with its key, the
    values before and after, and its type. *)
Record Diff := {
  Type_ : DiffType;
  Key : val.Tuple;
  From : val.Tuple;
  To : val.Tuple
}.

Definition zeroDiff : Diff :=
  {| Type_ := AddedDiff; Key := None; From := None; To := None |}.

(** [TupleMergeFn]: the conflict resolver. *)
Definition TupleMergeFn := Diff -> Diff -> Diff * bool.

(** [patch]: a key and the value to give it. *)
Definition patch := (val.Tuple * val.Tuple)%type.

(** The patches sent on the buffer's channel so far, oldest first. *)
Definition patchBuffer := list patch.

Definition io_EOF : string := "EOF".

(** Modelled from the spec: a differ is a finite ordered stream of diffs.
    [pending] are the diffs still to come; once they are used up [Next]
    reports [failure] if there is one, and [io.EOF] otherwise. *)
Record treeDiffer := {
  cmp : compareFn;
  pending : list Diff;
  failure : option string
}.

Definition Next (td : treeDiffer) : Diff * error * treeDiffer :=
  match pending td with
  | d :: rest =>
      (d, None, {| cmp := cmp td; pending := rest; failure := failure td |})
  | [] => (zeroDiff, Some (default io_EOF (failure td)), td)
  end.

(** The variables of [sendPatches]. *)
Record walk := {
  leftDiff : Diff;
  rightDiff : Diff;
  lok : bool;
  rok : bool;
  ldiffer : treeDiffer;
  rdiffer : treeDiffer;
  buf : patchBuffer
}.

Definition compareDiffKeys (left right : Diff) (cmp : compareFn) : Z :=
  cmp (Key left) (Key right).

Definition equalDiffVals (left right : Diff) : bool :=
  bool_decide (Type_ left = Type_ right) && bytesEqual (To left) (To right).

Definition patchOf (d : Diff) : patch := (Key d, To d).

Section Merge.

(** What [ctx.Err()] shows when the patch after the first [n] is offered
    to the channel: nil while the context is live and the consumer takes
    the patch. *)
Variable ctx : nat -> error.

(** The conflict resolver handed to [ThreeWayMerge]. *)
Variable cb : TupleMergeFn.

Definition sendPatch (ps : patchBuffer) (diff : Diff) : patchBuffer * error :=
  match ctx (length ps) with
  | Some e => (ps, Some e)
  | None => (ps ++ [patchOf diff], None)
  end.

(** [err == io.EOF] *)
Definition isEOF (err : error) : bool :=
  match err with
  | Some e => String.eqb e io_EOF
  | None => false
  end.

(** [left, err = l.Next(ctx); if err == io.EOF { err, lok = nil, false }] *)
Definition nextLeft (st : walk) : walk * error :=
  let '(d, err, l') := Next (ldiffer st) in
  let eof := isEOF err in
  ({| leftDiff := d; rightDiff := rightDiff st;
      lok := if eof then false else lok st; rok := rok st;
      ldiffer := l'; rdiffer := rdiffer st; buf := buf st |},
   if eof then None else err).

Definition nextRight (st : walk) : walk * error :=
  let '(d, err, r') := Next (rdiffer st) in
  let eof := isEOF err in
  ({| leftDiff := leftDiff st; rightDiff := d;
      lok := lok st; rok := if eof then false else rok st;
      ldiffer := ldiffer st; rdiffer := r'; buf := buf st |},
   if eof then None else err).

Definition withBuf (st : walk) (ps : patchBuffer) : walk :=
  {| leftDiff := leftDiff st; rightDiff := rightDiff st;
     lok := lok st; rok := rok st;
     ldiffer := ldiffer st; rdiffer := rdiffer st; buf := ps |}.

(** [err = buf.sendPatch(ctx, right); if err != nil { return err };
     right, err = r.Next(ctx); ...] *)
Definition sendRight (st : walk) : walk * error :=
  let '(ps, err) := sendPatch (buf st) (rightDiff st) in
  match err with
  | Some e => (withBuf st ps, Some e)
  | None => nextRight (withBuf st ps)
  end.

(** One turn of [for lok && rok { switch ... }]; a non-nil error is the
    [return err] of the turn. *)
Definition loopBody (st : walk) : walk * error :=
  let c := compareDiffKeys (leftDiff st) (rightDiff st) (cmp (ldiffer st)) in
  if (c <? 0)%Z then nextLeft st
  else if (0 <? c)%Z then sendRight st
  else
    if equalDiffVals (leftDiff st) (rightDiff st) then (st, None)
    else
      let '(resolved, ok) := cb (leftDiff st) (rightDiff st) in
      if ok then
        let '(ps, err) := sendPatch (buf st) resolved in
        (withBuf st ps, err)
      else (st, None).

(** [for lok && rok { ... }]; [None] when [fuel] turns were not enough. *)
Fixpoint mainLoop (fuel : nat) (st : walk) : option (walk * error) :=
  if lok st && rok st then
    match fuel with
    | O => None
    | S fuel' =>
        match loopBody st with
        | (st', Some e) => Some (st', Some e)
        | (st', None) => mainLoop fuel' st'
        end
    end
  else Some (st, None).

(** [for lok { break }] *)
Definition drainLeft (st : walk) : walk := st.

(** [for rok { sendPatch(right); right = r.Next() }] *)
Fixpoint drainRight (fuel : nat) (st : walk) : option (walk * error) :=
  if rok st then
    match fuel with
    | O => None
    | S fuel' =>
        match sendRight st with
        | (st', Some e) => Some (st', Some e)
        | (st', None) => drainRight fuel' st'
        end
    end
  else Some (st, None).

(** The two loops after the main one. *)
Definition drain (fuel : nat) (st : walk) : option (walk * error) :=
  drainRight fuel (drainLeft st).

Definition startWalk (l r : treeDiffer) (ps : patchBuffer) : walk :=
  {| leftDiff := zeroDiff; rightDiff := zeroDiff; lok := true; rok := true;
     ldiffer := l; rdiffer := r; buf := ps |}.

(** [sendPatches]: the patches on the channel and the error returned, or
    [None] when the loops did not end within [fuel] turns each. *)
Definition sendPatches (fuel : nat) (l r : treeDiffer) (ps : patchBuffer)
  : option (patchBuffer * error) :=
  match nextLeft (startWalk l r ps) with
  | (st, Some e) => Some (buf st, Some e)
  | (st, None) =>
      match nextRight st with
      | (st, Some e) => Some (buf st, Some e)
      | (st, None) =>
          match mainLoop fuel st with
          | None => None
          | Some (st, Some e) => Some (buf st, Some e)
          | Some (st, None) =>
              match drain fuel st with
              | None => None
              | Some (st, err) => Some (buf st, err)
              end
          end
      end
  end.

(** Same walk, up to the patches sent. *)
Definition sameCursor (st st' : walk) : Prop :=
  leftDiff st' = leftDiff st /\ rightDiff st' = rightDiff st
  /\ lok st' = lok st /\ rok st' = rok st
  /\ ldiffer st' = ldiffer st /\ rdiffer st' = rdiffer st.

(** No diff of [ls] is for the key of a diff of [rs]. *)
Definition disjointKeys (c : compareFn) (ls rs : list Diff) : Prop :=
  forall dl dr, dl ∈ ls -> dr ∈ rs -> c (Key dl) (Key dr) <> 0%Z.

(** The patches sent, followed by the patches the right stream still owes. *)
Definition rightPatches (st : walk) : list patch :=
  buf st ++ (if rok st
             then patchOf <$> (rightDiff st :: pending (rdiffer st))
             else []).

Lemma sendPatch_live (ps : patchBuffer) (diff : Diff) :
  ctx (length ps) = None -> sendPatch ps diff = (ps ++ [patchOf diff], None).
Proof. unfold sendPatch. by intros ->. Qed.

Lemma loopBody_same_key (st : walk) :
  compareDiffKeys (leftDiff st) (rightDiff st) (cmp (ldiffer st)) = 0%Z ->
  equalDiffVals (leftDiff st) (rightDiff st) = true
  \/ (forall n, ctx n = None) ->
  exists st', loopBody st = (st', None) /\ sameCursor st st'.
Proof.
  intros Hc Hor. unfold loopBody. rewrite Hc. cbn.
  destruct (equalDiffVals (leftDiff st) (rightDiff st)) eqn:Eeq.
  - exists st. by repeat split.
  - destruct Hor as [?|Hlive]; [done|].
    destruct (cb (leftDiff st) (rightDiff st)) as [resolved [|]].
    + rewrite sendPatch_live by apply Hlive.
      eexists. split; [done|]. by repeat split.
    + exists st. by repeat split.
Qed.

Lemma mainLoop_same_key (fuel : nat) (st : walk) :
  lok st = true -> rok st = true ->
  compareDiffKeys (leftDiff st) (rightDiff st) (cmp (ldiffer st)) = 0%Z ->
  equalDiffVals (leftDiff st) (rightDiff st) = true
  \/ (forall n, ctx n = None) ->
  mainLoop fuel st = None.
Proof.
  revert st; induction fuel as [|fuel IH]; intros st Hl Hr Hc Hor;
    cbn [mainLoop]; rewrite Hl, Hr; cbn; [done|].
  destruct (loopBody_same_key st Hc Hor)
    as (st' & -> & El & Er & Elok & Erok & Eld & Erd).
  apply IH; rewrite ?El, ?Er, ?Elok, ?Erok, ?Eld; auto.
Qed.

(** C1, what the code does. When the first diffs of both streams are for
    the same key, the walk never gets past them: whatever the number of
    turns allowed, [sendPatches] has not returned. (With different values
    this is so while the context stays live.) *)
Theorem sendPatches_same_key_never_returns
    (fuel : nat) (l r : treeDiffer) (ps : patchBuffer)
    (dl dr : Diff) (ls rs : list Diff) :
  pending l = dl :: ls -> pending r = dr :: rs ->
  cmp l (Key dl) (Key dr) = 0%Z ->
  equalDiffVals dl dr = true \/ (forall n, ctx n = None) ->
  sendPatches fuel l r ps = None.
Proof.
  intros Hl Hr Hc Hor.
  unfold sendPatches, nextLeft, nextRight, Next, startWalk; cbn.
  rewrite Hl; cbn. rewrite Hr; cbn.
  rewrite mainLoop_same_key; done.
Qed.

(** One turn on a key both sides changed to different values: the
    resolver is called on the two diffs; when it says ok the resolved diff
    is sent as the patch (key, to), and when it does not the turn leaves
    the walk as it was. *)
Lemma loopBody_conflicting_values (st : walk) (resolved : Diff) (ok : bool) :
  compareDiffKeys (leftDiff st) (rightDiff st) (cmp (ldiffer st)) = 0%Z ->
  bytesEqual (To (leftDiff st)) (To (rightDiff st)) = false ->
  cb (leftDiff st) (rightDiff st) = (resolved, ok) ->
  ctx (length (buf st)) = None ->
  loopBody st
  = if ok then (withBuf st (buf st ++ [(Key resolved, To resolved)]), None)
    else (st, None).
Proof.
  intros Hc Hne Hcb Hlive. unfold loopBody, equalDiffVals.
  rewrite Hc, Hne, andb_false_r, Hcb. cbn.
  destruct ok; [by rewrite sendPatch_live|done].
Qed.

Lemma sendRight_live (st : walk) :
  (forall n, ctx n = None) ->
  sendRight st = nextRight (withBuf st (buf st ++ [patchOf (rightDiff st)])).
Proof.
  intros Hlive. unfold sendRight. by rewrite sendPatch_live.
Qed.

Lemma drainRight_sends (rest : list Diff) :
  forall (fuel : nat) (st : walk),
    (forall n, ctx n = None) ->
    failure (rdiffer st) = None ->
    pending (rdiffer st) = rest ->
    rok st = true ->
    length rest < fuel ->
    exists st',
      drainRight fuel st = Some (st', None)
      /\ buf st' = buf st ++ (patchOf <$> (rightDiff st :: rest))
      /\ leftDiff st' = leftDiff st /\ ldiffer st' = ldiffer st
      /\ lok st' = lok st.
Proof.
  induction rest as [|d rest IH]; intros fuel st Hlive Hfail Hpend Hrok Hfuel.
  - destruct fuel as [|fuel]; [simpl in Hfuel; lia|].
    cbn [drainRight]. rewrite Hrok, sendRight_live by done.
    unfold nextRight, Next. cbn. rewrite Hpend, Hfail. cbn.
    destruct fuel; eexists; (split; [reflexivity|]); by repeat split.
  - destruct fuel as [|fuel]; [simpl in Hfuel; lia|].
    cbn [drainRight]. rewrite Hrok, sendRight_live by done.
    unfold nextRight, Next. cbn. rewrite Hpend. cbn. rewrite Hrok.
    match goal with |- context [drainRight fuel ?s] =>
      destruct (IH fuel s) as (st' & E & Hbuf & Hl & Hld & Hlok);
        [done | done | done | done | simpl in Hfuel; lia |]
    end.
    exists st'. split; [done|]. cbn in *.
    rewrite Hbuf, <- app_assoc. by repeat split.
Qed.


(** *** Streams that share no key *)

Lemma mainLoop_stopped (fuel : nat) (st : walk) :
  lok st && rok st = false -> mainLoop fuel st = Some (st, None).
Proof. intros E. destruct fuel; cbn [mainLoop]; by rewrite E. Qed.

Lemma mainLoop_returns (fuel : nat) :
  forall st : walk,
    (forall n, ctx n = None) ->
    failure (ldiffer st) = None -> failure (rdiffer st) = None ->
    (lok st && rok st = true ->
     disjointKeys (cmp (ldiffer st))
       (leftDiff st :: pending (ldiffer st))
       (rightDiff st :: pending (rdiffer st))) ->
    length (pending (ldiffer st)) + length (pending (rdiffer st)) < fuel ->
    exists st',
      mainLoop fuel st = Some (st', None)
      /\ failure (rdiffer st') = None
      /\ length (pending (rdiffer st')) <= length (pending (rdiffer st))
      /\ rightPatches st' = rightPatches st.
Proof.
  induction fuel as [|fuel IH]; intros st Hlive Hfl Hfr Hdis Hfuel; [lia|].
  destruct (lok st && rok st) eqn:Hboth.
  2:{ exists st. rewrite mainLoop_stopped by done. by repeat split. }
  apply andb_true_iff in Hboth as [Hlok Hrok].
  specialize (Hdis eq_refl).
  cbn [mainLoop]. rewrite Hlok, Hrok. cbn [andb].
  unfold loopBody, compareDiffKeys.
  assert (cmp (ldiffer st) (Key (leftDiff st)) (Key (rightDiff st)) <> 0%Z)
    as Hne by (apply Hdis; apply list_elem_of_here).
  destruct (Z.ltb_spec (cmp (ldiffer st) (Key (leftDiff st))
                          (Key (rightDiff st))) 0) as [Hlt|Hge].
  - (* left is behind: read the next left diff *)
    unfold nextLeft, Next.
    destruct (pending (ldiffer st)) as [|d rest] eqn:Hpl; cbn.
    + rewrite Hfl. cbn.
      rewrite mainLoop_stopped by done.
      eexists. split; [reflexivity|]. cbn.
      unfold rightPatches; cbn. by rewrite Hrok.
    + rewrite Hlok.
      match goal with |- context [mainLoop fuel ?s] =>
        destruct (IH s) as (st' & E & Hf' & Hlen' & Hrp'); cbn;
          [done | done | done | | simpl in Hfuel; lia |]
      end.
      * intros _ dl dr Hdl Hdr. apply Hdis; [|done].
        by apply list_elem_of_further.
      * exists st'. split; [done|]. split; [done|]. split; [done|].
        rewrite Hrp'. unfold rightPatches; cbn. done.
  - (* right is behind: send it and read the next right diff *)
    destruct (Z.ltb_spec 0 (cmp (ldiffer st) (Key (leftDiff st))
                              (Key (rightDiff st)))) as [Hgt|Hle]; [|lia].
    rewrite sendRight_live by done.
    unfold nextRight, Next, withBuf. cbn.
    destruct (pending (rdiffer st)) as [|d rest] eqn:Hpr; cbn.
    + rewrite Hfr. cbn.
      rewrite mainLoop_stopped by (cbn; apply andb_false_r).
      eexists. split; [reflexivity|]. cbn. rewrite Hpr.
      split; [done|]. split; [done|].
      unfold rightPatches; cbn. by rewrite Hrok, Hpr, app_nil_r.
    + rewrite Hrok.
      match goal with |- context [mainLoop fuel ?s] =>
        destruct (IH s) as (st' & E & Hf' & Hlen' & Hrp'); cbn;
          [done | done | done | | simpl in Hfuel; lia |]
      end.
      * intros _ dl dr Hdl Hdr. apply Hdis; [done|].
        by apply list_elem_of_further.
      * exists st'. split; [done|]. split; [done|].
        cbn in Hlen'. split; [simpl; lia|].
        rewrite Hrp'. unfold rightPatches; cbn.
        by rewrite Hrok, Hpr, <- app_assoc.
Qed.

Lemma drain_rightPatches (fuel : nat) (st : walk) :
  (forall n, ctx n = None) ->
  failure (rdiffer st) = None ->
  length (pending (rdiffer st)) < fuel ->
  exists st', drain fuel st = Some (st', None) /\ buf st' = rightPatches st.
Proof.
  intros Hlive Hfail Hfuel. unfold drain, drainLeft, rightPatches.
  destruct (rok st) eqn:Hrok.
  - destruct (drainRight_sends (pending (rdiffer st)) fuel st)
      as (st' & E & Hbuf & _); eauto.
  - exists st. destruct fuel; cbn; rewrite Hrok, app_nil_r; done.
Qed.

(** X12. When the two streams share no key the walk ends, and it has sent the
    right stream's diffs, each as a patch, in stream order. *)
Lemma sendPatches_without_shared_keys (l r : treeDiffer) (ps : patchBuffer) :
  (forall n, ctx n = None) ->
  failure l = None -> failure r = None ->
  disjointKeys (cmp l) (pending l) (pending r) ->
  sendPatches (S (length (pending l) + length (pending r))) l r ps
  = Some (ps ++ (patchOf <$> pending r), None).
Proof.
  intros Hlive Hfl Hfr Hdis.
  set (fuel := S (length (pending l) + length (pending r))).
  assert (length (pending l) + length (pending r) < fuel) as Hfuel
    by (unfold fuel; lia).
  clearbody fuel.
  unfold sendPatches.
  destruct (nextLeft (startWalk l r ps)) as [st1 e1] eqn:E1.
  destruct (nextRight st1) as [st2 e2] eqn:E2.
  assert (e1 = None /\ e2 = None
          /\ cmp (ldiffer st2) = cmp l
          /\ failure (ldiffer st2) = None /\ failure (rdiffer st2) = None
          /\ (lok st2 = true ->
              leftDiff st2 :: pending (ldiffer st2) = pending l)
          /\ length (pending (ldiffer st2)) <= length (pending l)
          /\ length (pending (rdiffer st2)) <= length (pending r)
          /\ (rok st2 = true ->
              rightDiff st2 :: pending (rdiffer st2) = pending r)
          /\ rightPatches st2 = ps ++ (patchOf <$> pending r))
    as (-> & -> & Hc & Hfl2 & Hfr2 & Hl2 & Hll & Hlr & Hr2 & Hrp).
  { unfold nextLeft, nextRight, Next, startWalk in *. cbn in E1.
    destruct (pending l) as [|dl ls] eqn:Hpl; cbn in E1; rewrite ?Hfl in E1;
      cbn in E1; injection E1 as <- <-; cbn in E2;
      (destruct (pending r) as [|dr rs] eqn:Hpr; cbn in E2;
       rewrite ?Hfr in E2; cbn in E2; injection E2 as <- <-; cbn;
       unfold rightPatches; cbn; rewrite ?app_nil_r, ?Hpl, ?Hpr;
       repeat split; auto; try discriminate; simpl; lia). }
  destruct (mainLoop_returns fuel st2) as (st3 & -> & Hf3 & Hlen3 & Hrp3);
    [done | done | done | | lia |].
  { intros Hboth. apply andb_true_iff in Hboth as [Hlok Hrok].
    rewrite Hc, (Hl2 Hlok), (Hr2 Hrok). done. }
  destruct (drain_rightPatches fuel st3)
    as (st4 & -> & Hbuf); [done | done | lia |].
  by rewrite Hbuf, Hrp3, Hrp.
Qed.

(** *** The first key the two streams share *)







Section SharedKey.

Variable c : compareFn.
Variables dl dr : Diff.
Variables restL restR : list Diff.


End SharedKey.


End Merge.

(** *** The merge walk on small streams *)

(** A context that is never cancelled, with a consumer that keeps up. *)
Definition liveCtx : nat -> error := fun _ => None.

(** Resolvers: one that settles every conflict for the left side, one that
    settles none. *)
Definition chooseLeft : TupleMergeFn := fun left _ => (left, true).
Definition rejectAll : TupleMergeFn := fun left _ => (left, false).

Definition modified (k : byte) (from to : byte) : Diff :=
  {| Type_ := ModifiedDiff; Key := key1 k;
     From := Some [from]; To := Some [to] |}.

Definition differOf (ds : list Diff) : treeDiffer :=
  {| cmp := bytesCompare; pending := ds; failure := None |}.

(** Both sides changed key [x62] to the same value. *)
Lemma sendPatches_same_key_never_returns_witness :
  sendPatches liveCtx chooseLeft 1000
    (differOf [modified x62 x02 x14]) (differOf [modified x62 x02 x14]) []
  = None.
Proof.
  apply (sendPatches_same_key_never_returns liveCtx chooseLeft 1000
           (differOf [modified x62 x02 x14]) (differOf [modified x62 x02 x14])
           [] (modified x62 x02 x14) (modified x62 x02 x14) [] []);
    try reflexivity.
  left. reflexivity.
Defined.

Definition removed (k : byte) (from : byte) : Diff :=
  {| Type_ := RemovedDiff; Key := key1 k; From := Some [from]; To := None |}.

Definition added (k : byte) (to : byte) : Diff :=
  {| Type_ := AddedDiff; Key := key1 k; From := None; To := Some [to] |}.

(** Base a->1, b->2, c->3; left deletes a and sets b to 20; right inserts
    d->4 and sets b to 20.  The walk passes a and then stays on b. *)
Example sendPatches_both_update_b_never_returns (fuel : nat) :
  sendPatches liveCtx chooseLeft fuel
    (differOf [removed x61 x01; modified x62 x02 x14])
    (differOf [modified x62 x02 x14; added x64 x04]) []
  = None.
Proof.
  destruct fuel as [|fuel]; [reflexivity|].
  unfold sendPatches. cbn.
  rewrite mainLoop_same_key; try reflexivity. by left.
Qed.

(** Left deletes a, right inserts d: the walk ends with the one patch. *)
Example sendPatches_disjoint_changes :
  sendPatches liveCtx rejectAll 3
    (differOf [removed x61 x01]) (differOf [added x64 x04]) []
  = Some ([(key1 x64, Some [x04])], None).
Proof. reflexivity. Qed.

(** The walk standing on key [x62], changed to [x14] on the left and to
    [xc8] on the right. *)
Definition conflictWalk : walk :=
  {| leftDiff := modified x62 x02 x14; rightDiff := modified x62 x02 xc8;
     lok := true; rok := true;
     ldiffer := differOf []; rdiffer := differOf []; buf := [] |}.

Example loopBody_resolved_conflict :
  loopBody liveCtx chooseLeft conflictWalk
  = (withBuf conflictWalk [(key1 x62, Some [x14])], None).
Proof. reflexivity. Qed.

(** The resolver says not-ok, and the turn returns no error and leaves
    every variable of the walk, the patches sent included, as it was;
    nothing of the conflict is kept. *)
Example loopBody_unresolved_conflict_leaves_no_trace :
  bytesEqual (To (leftDiff conflictWalk)) (To (rightDiff conflictWalk)) = false
  /\ rejectAll (leftDiff conflictWalk) (rightDiff conflictWalk)
     = (leftDiff conflictWalk, false)
  /\ loopBody liveCtx rejectAll conflictWalk = (conflictWalk, None).
Proof. split; [|split]; reflexivity. Qed.



(** The left stream still holds the diffs for [x63] and [x64], the right
    stream is at its end: nothing is sent. *)
Example drain_left_remainder_sends_nothing :
  drain liveCtx 5
    {| leftDiff := modified x63 x03 x1e; rightDiff := zeroDiff;
       lok := true; rok := false;
       ldiffer := differOf [modified x64 x04 x28]; rdiffer := differOf [];
       buf := [(Some [x62], Some [x14])] |}
  = Some ({| leftDiff := modified x63 x03 x1e; rightDiff := zeroDiff;
             lok := true; rok := false;
             ldiffer := differOf [modified x64 x04 x28];
             rdiffer := differOf [];
             buf := [(Some [x62], Some [x14])] |}, None).
Proof. reflexivity. Qed.

(** *** More on the merge walk *)

Lemma compareBytes_eq (a b : bytes) : compareBytes a b = 0%Z <-> a = b.
Proof.
  revert b; induction a as [|x a IH]; intros [|y b]; cbn; try done.
  destruct (N.compare_spec (Byte.to_N x) (Byte.to_N y)) as [E|Hlt|Hgt].
  - assert (x = y) as ->.
    { pose proof (Byte.of_to_N x) as Hx. rewrite E, Byte.of_to_N in Hx.
      congruence. }
    rewrite IH. split; [by intros -> | by intros [= ->]].
  - split; [done|]. intros [= -> _]. lia.
  - split; [done|]. intros [= -> _]. lia.
Qed.

(** X8. [equalDiffVals] holds exactly when the two diffs have the same type and
    the same bytes to go to, a nil tuple counting as an empty one; the keys
    and the values before play no part. *)
Theorem equalDiffVals_iff (left right : Diff) :
  equalDiffVals left right = true
  <-> Type_ left = Type_ right
      /\ default [] (To left) = default [] (To right).
Proof.
  unfold equalDiffVals, bytesEqual, bytesCompare.
  rewrite andb_true_iff, bool_decide_eq_true, Z.eqb_eq, compareBytes_eq.
  done.
Qed.

Section MergeFacts.
Variable ctx : nat -> error.
Variable cb : TupleMergeFn.

(** The first [Next] of the differ goes well: a diff, or the end. *)
Definition startsWell (td : treeDiffer) : Prop :=
  pending td <> [] \/ failure td = None.

Lemma nextLeft_startsWell (st : walk) :
  startsWell (ldiffer st) -> snd (nextLeft st) = None.
Proof.
  unfold nextLeft, Next. intros [Hne|Hnone].
  - by destruct (pending (ldiffer st)).
  - destruct (pending (ldiffer st)); [|done]. by rewrite Hnone.
Qed.

(** X9. A differ that fails on its first [Next] makes [sendPatches] return
    that error at once, whatever the fuel, with nothing sent: the left
    differ first, the right one when the left one started well. *)
Theorem sendPatches_differ_fails_at_once
    (fuel : nat) (l r : treeDiffer) (ps : patchBuffer) (e : string) :
  e <> io_EOF ->
  (pending l = [] -> failure l = Some e ->
   sendPatches ctx cb fuel l r ps = Some (ps, Some e))
  /\ (startsWell l -> pending r = [] -> failure r = Some e ->
      sendPatches ctx cb fuel l r ps = Some (ps, Some e)).
Proof.
  intros He.
  assert (String.eqb e io_EOF = false) as Heqb by by apply String.eqb_neq.
  split.
  - intros Hp Hf. unfold sendPatches, nextLeft, Next, startWalk. cbn.
    rewrite Hp, Hf. cbn. by rewrite Heqb.
  - intros Hl Hp Hf. unfold sendPatches.
    pose proof (nextLeft_startsWell (startWalk l r ps) Hl) as Hnl.
    destruct (nextLeft (startWalk l r ps)) as [st1 e1] eqn:E1.
    cbn in Hnl. subst e1.
    assert (rdiffer st1 = r /\ buf st1 = ps) as [Hr Hb].
    { unfold nextLeft in E1. destruct (Next _) as [[d err] l'].
      injection E1 as <-. done. }
    unfold nextRight, Next. rewrite Hr, Hp, Hf. cbn. by rewrite Heqb, Hb.
Qed.

(** X10. When the right side has no diff, [sendPatches] returns nil with
    nothing sent, whatever the fuel, the context and the resolver; of the
    left stream only the first diff is read. *)
Theorem sendPatches_right_unchanged
    (fuel : nat) (l r : treeDiffer) (ps : patchBuffer) :
  startsWell l -> pending r = [] -> failure r = None ->
  sendPatches ctx cb fuel l r ps = Some (ps, None).
Proof.
  intros Hl Hp Hf. unfold sendPatches.
  pose proof (nextLeft_startsWell (startWalk l r ps) Hl) as Hnl.
  destruct (nextLeft (startWalk l r ps)) as [st1 e1] eqn:E1.
  cbn in Hnl. subst e1.
  assert (rdiffer st1 = r /\ buf st1 = ps) as [Hr Hb].
  { unfold nextLeft in E1. destruct (Next _) as [[d err] l'].
    injection E1 as <-. done. }
  unfold nextRight, Next. rewrite Hr, Hp, Hf. cbn.
  rewrite mainLoop_stopped by (cbn; apply andb_false_r).
  unfold drain, drainLeft. destruct fuel; cbn; by rewrite Hb.
Qed.

(** Where a patch may come from: (key, to) of a diff of the right stream,
    or (key, to) of the diff the resolver returned, with ok, for a left
    and a right diff of the same key that do not agree. *)
Definition patchFrom (c : compareFn) (ls rs : list Diff) (p : patch) : Prop :=
  (exists d, d ∈ rs /\ p = (Key d, To d))
  \/ (exists dl dr resolved,
        dl ∈ ls /\ dr ∈ rs
        /\ c (Key dl) (Key dr) = 0%Z
        /\ equalDiffVals dl dr = false
        /\ cb dl dr = (resolved, true)
        /\ p = (Key resolved, To resolved)).

(** The patches sent so far extend [ps] by patches of allowed origin. *)
Definition sentFrom (c : compareFn) (ls rs : list Diff) (ps : patchBuffer)
    (now : patchBuffer) : Prop :=
  exists sent, now = ps ++ sent /\ Forall (patchFrom c ls rs) sent.

(** The diffs in hand and still to come are diffs of the two streams, and
    the comparator is the left differ's. *)
Definition withinStreams (c : compareFn) (ls rs : list Diff) (st : walk)
  : Prop :=
  (lok st = true -> leftDiff st ∈ ls)
  /\ (rok st = true -> rightDiff st ∈ rs)
  /\ pending (ldiffer st) ⊆ ls
  /\ pending (rdiffer st) ⊆ rs
  /\ cmp (ldiffer st) = c.

Lemma sentFrom_snoc c ls rs ps now p :
  sentFrom c ls rs ps now -> patchFrom c ls rs p ->
  sentFrom c ls rs ps (now ++ [p]).
Proof.
  intros (sent & -> & Hall) Hp. exists (sent ++ [p]).
  split; [by rewrite app_assoc|]. apply Forall_app. split; [done|].
  by apply Forall_singleton.
Qed.

Lemma sendPatch_sentFrom c ls rs ps now d :
  sentFrom c ls rs ps now -> patchFrom c ls rs (Key d, To d) ->
  sentFrom c ls rs ps (fst (sendPatch ctx now d)).
Proof.
  intros Hs Hp. unfold sendPatch.
  destruct (ctx (length now)); cbn; [done | by apply sentFrom_snoc].
Qed.

Lemma nextLeft_facts (st st' : walk) err :
  nextLeft st = (st', err) ->
  buf st' = buf st /\ rightDiff st' = rightDiff st /\ rok st' = rok st
  /\ rdiffer st' = rdiffer st
  /\ cmp (ldiffer st') = cmp (ldiffer st)
  /\ (err = None ->
      (lok st' = true -> leftDiff st' ∈ pending (ldiffer st))
      /\ pending (ldiffer st') ⊆ pending (ldiffer st)).
Proof.
  unfold nextLeft, Next. intros E.
  destruct (pending (ldiffer st)) as [|d rest] eqn:Hp.
  - destruct (failure (ldiffer st)) as [e|] eqn:Hf; cbn in E;
      [destruct (String.eqb e io_EOF) eqn:He|];
      injection E as <- <-; cbn; repeat split; try done;
      rewrite Hp; set_solver.
  - cbn in E. injection E as <- <-. cbn. repeat split; try done; set_solver.
Qed.

Lemma nextRight_facts (st st' : walk) err :
  nextRight st = (st', err) ->
  buf st' = buf st /\ leftDiff st' = leftDiff st /\ lok st' = lok st
  /\ ldiffer st' = ldiffer st
  /\ (err = None ->
      (rok st' = true -> rightDiff st' ∈ pending (rdiffer st))
      /\ pending (rdiffer st') ⊆ pending (rdiffer st)).
Proof.
  unfold nextRight, Next. intros E.
  destruct (pending (rdiffer st)) as [|d rest] eqn:Hp.
  - destruct (failure (rdiffer st)) as [e|] eqn:Hf; cbn in E;
      [destruct (String.eqb e io_EOF) eqn:He|];
      injection E as <- <-; cbn; repeat split; try done;
      rewrite Hp; set_solver.
  - cbn in E. injection E as <- <-. cbn. repeat split; try done; set_solver.
Qed.

Lemma nextLeft_within c ls rs (st st' : walk) err :
  nextLeft st = (st', err) ->
  (rok st = true -> rightDiff st ∈ rs) ->
  pending (ldiffer st) ⊆ ls -> pending (rdiffer st) ⊆ rs ->
  cmp (ldiffer st) = c ->
  buf st' = buf st /\ (err = None -> withinStreams c ls rs st').
Proof.
  intros E Hr Hpl Hpr Hc.
  destruct (nextLeft_facts st st' err E)
    as (Hb & Erd & Erok & Erdf & Ec & Hleft).
  split; [done|]. intros Hnone. pose proof (Hleft Hnone) as [Hl' Hpl'].
  unfold withinStreams. rewrite Erd, Erok, Erdf, Ec.
  repeat split; [intros Hlok; apply Hpl; by apply Hl' | done
                | intros x Hx; apply Hpl; by apply Hpl' | done | done].
Qed.

Lemma nextRight_within c ls rs (st st' : walk) err :
  nextRight st = (st', err) ->
  (lok st = true -> leftDiff st ∈ ls) ->
  pending (ldiffer st) ⊆ ls -> pending (rdiffer st) ⊆ rs ->
  cmp (ldiffer st) = c ->
  buf st' = buf st /\ (err = None -> withinStreams c ls rs st').
Proof.
  intros E Hl Hpl Hpr Hc.
  destruct (nextRight_facts st st' err E) as (Hb & Eld & Elok & Eldf & Hright).
  split; [done|]. intros Hnone. pose proof (Hright Hnone) as [Hr' Hpr'].
  unfold withinStreams. rewrite Eld, Elok, Eldf.
  repeat split; [done | intros Hrok; apply Hpr; by apply Hr'
                | done | intros x Hx; apply Hpr; by apply Hpr' | done].
Qed.

Lemma sendRight_within c ls rs ps (st st' : walk) err :
  sendRight ctx st = (st', err) -> rok st = true ->
  withinStreams c ls rs st -> sentFrom c ls rs ps (buf st) ->
  sentFrom c ls rs ps (buf st') /\ (err = None -> withinStreams c ls rs st').
Proof.
  unfold sendRight. intros E Hrok Hw Hs.
  destruct Hw as (Hl & Hr & Hpl & Hpr & Hc).
  assert (patchFrom c ls rs (Key (rightDiff st), To (rightDiff st))) as Hp.
  { left. exists (rightDiff st). split; [by apply Hr | done]. }
  pose proof (sendPatch_sentFrom c ls rs ps (buf st) (rightDiff st) Hs Hp)
    as Hs'.
  destruct (sendPatch ctx (buf st) (rightDiff st)) as [now [e|]]; cbn in *.
  - injection E as <- <-. cbn. done.
  - destruct (nextRight_within c ls rs (withBuf st now) st' err E) as [Hb Hw'];
      [by cbn | by cbn | by cbn | by cbn |]. rewrite Hb. done.
Qed.

Lemma loopBody_within c ls rs ps (st st' : walk) err :
  loopBody ctx cb st = (st', err) -> lok st = true -> rok st = true ->
  withinStreams c ls rs st -> sentFrom c ls rs ps (buf st) ->
  sentFrom c ls rs ps (buf st') /\ (err = None -> withinStreams c ls rs st').
Proof.
  unfold loopBody, compareDiffKeys. intros E Hlok Hrok Hw Hs.
  destruct (Z.ltb_spec (cmp (ldiffer st) (Key (leftDiff st))
                          (Key (rightDiff st))) 0) as [Hlt|Hge].
  - destruct Hw as (Hl & Hr & Hpl & Hpr & Hc).
    destruct (nextLeft_within c ls rs st st' err E Hr Hpl Hpr Hc) as [-> Hw'].
    done.
  - destruct (Z.ltb_spec 0 (cmp (ldiffer st) (Key (leftDiff st))
                              (Key (rightDiff st)))) as [Hgt|Hle];
      [by eapply sendRight_within|].
    destruct (equalDiffVals (leftDiff st) (rightDiff st)) eqn:Heq;
      [by injection E as <- <-|].
    destruct (cb (leftDiff st) (rightDiff st)) as [resolved ok] eqn:Hcb.
    destruct ok; [|by injection E as <- <-].
    assert (patchFrom c ls rs (Key resolved, To resolved)) as Hp.
    { right. exists (leftDiff st), (rightDiff st), resolved.
      destruct Hw as (Hl & Hr & _ & _ & Hc). rewrite <- Hc.
      repeat split; auto. lia. }
    pose proof (sendPatch_sentFrom c ls rs ps (buf st) resolved Hs Hp) as Hs'.
    destruct (sendPatch ctx (buf st) resolved) as [now e].
    injection E as <- <-. cbn in *. split; [done|].
    intros _. destruct Hw as (Hl & Hr & Hpl & Hpr & Hc). done.
Qed.

Lemma mainLoop_within c ls rs ps (fuel : nat) :
  forall (st st' : walk) err,
    mainLoop ctx cb fuel st = Some (st', err) ->
    withinStreams c ls rs st -> sentFrom c ls rs ps (buf st) ->
    sentFrom c ls rs ps (buf st') /\ (err = None -> withinStreams c ls rs st').
Proof.
  induction fuel as [|fuel IH]; intros st st' err E Hw Hs; cbn [mainLoop] in E;
    destruct (lok st && rok st) eqn:Hboth; try discriminate;
    try (injection E as <- <-; done).
  apply andb_true_iff in Hboth as [Hlok Hrok].
  destruct (loopBody ctx cb st) as [st1 e1] eqn:E1.
  destruct (loopBody_within c ls rs ps st st1 e1 E1 Hlok Hrok Hw Hs)
    as [Hs1 Hw1].
  destruct e1 as [e|].
  - injection E as <- <-. done.
  - exact (IH st1 st' err E (Hw1 eq_refl) Hs1).
Qed.

Lemma drainRight_within c ls rs ps (fuel : nat) :
  forall (st st' : walk) err,
    drainRight ctx fuel st = Some (st', err) ->
    withinStreams c ls rs st -> sentFrom c ls rs ps (buf st) ->
    sentFrom c ls rs ps (buf st').
Proof.
  induction fuel as [|fuel IH]; intros st st' err E Hw Hs;
    cbn [drainRight] in E;
    destruct (rok st) eqn:Hrok; try discriminate;
    try (injection E as <- <-; done).
  destruct (sendRight ctx st) as [st1 e1] eqn:E1.
  destruct (sendRight_within c ls rs ps st st1 e1 E1 Hrok Hw Hs) as [Hs1 Hw1].
  destruct e1 as [e|].
  - injection E as <- <-. done.
  - exact (IH st1 st' err E (Hw1 eq_refl) Hs1).
Qed.

(** X11. Whenever [sendPatches] returns, with an error or without, the
    channel holds what it held before followed by the patches sent, and
    each patch sent is (key, to) of a diff of the right stream, or
    (key, to) of the diff the resolver returned with ok for a left and a
    right diff of the same key that do not agree (the resolver may well
    return the left diff itself).  Nothing already sent is dropped or
    reordered, and no patch has another origin. *)
Theorem sendPatches_sends_right_or_resolved
    (fuel : nat) (l r : treeDiffer) (ps ps' : patchBuffer) (err : error) :
  sendPatches ctx cb fuel l r ps = Some (ps', err) ->
  exists sent,
    ps' = ps ++ sent
    /\ Forall (fun p =>
                 (exists d, d ∈ pending r /\ p = (Key d, To d))
                 \/ (exists dl dr resolved,
                       dl ∈ pending l /\ dr ∈ pending r
                       /\ cmp l (Key dl) (Key dr) = 0%Z
                       /\ equalDiffVals dl dr = false
                       /\ cb dl dr = (resolved, true)
                       /\ p = (Key resolved, To resolved))) sent.
Proof.
  intros E. unfold sendPatches in E.
  change (sentFrom (cmp l) (pending l) (pending r) ps ps').
  assert (sentFrom (cmp l) (pending l) (pending r) ps ps) as Hs0
    by (exists []; by rewrite app_nil_r).
  destruct (nextLeft (startWalk l r ps)) as [st1 e1] eqn:E1.
  destruct (nextLeft_facts _ _ _ E1) as (Hb1 & _ & _ & Erd1 & Ec1 & Hleft).
  cbn in Hb1, Erd1, Ec1, Hleft.
  destruct e1 as [e|]; [injection E as <- <-; by rewrite Hb1|].
  destruct (Hleft eq_refl) as [Hl1 Hpl1].
  destruct (nextRight st1) as [st2 e2] eqn:E2.
  destruct (nextRight_facts _ _ _ E2) as (Hb2 & Eld2 & Elok2 & Eldf2 & Hright).
  destruct e2 as [e|]; [injection E as <- <-; by rewrite Hb2, Hb1|].
  destruct (Hright eq_refl) as [Hr2 Hpr2]. rewrite Erd1 in Hr2, Hpr2.
  assert (withinStreams (cmp l) (pending l) (pending r) st2) as Hw2.
  { unfold withinStreams. rewrite Eld2, Elok2, Eldf2. done. }
  assert (sentFrom (cmp l) (pending l) (pending r) ps (buf st2)) as Hs2
    by by rewrite Hb2, Hb1.
  destruct (mainLoop ctx cb fuel st2) as [[st3 e3]|] eqn:E3; [|discriminate].
  destruct (mainLoop_within _ _ _ ps fuel st2 st3 e3 E3 Hw2 Hs2) as [Hs3 Hw3].
  destruct e3 as [e|]; [by injection E as <- <-|].
  unfold drain, drainLeft in E.
  destruct (drainRight ctx fuel st3) as [[st4 e4]|] eqn:E4; [|discriminate].
  injection E as <- <-.
  by apply (drainRight_within _ _ _ ps fuel st3 st4 e4 E4 (Hw3 eq_refl)).
Qed.

End MergeFacts.

(** *** The merge facts on small streams *)

(** A differ whose first read fails. *)
Definition brokenDiffer : treeDiffer :=
  {| cmp := bytesCompare; pending := []; failure := Some "read failed"%string |}.

(** A context cancelled once [n] patches are on the channel. *)
Definition cancelAfter (n : nat) : nat -> error :=
  fun sent => if Nat.ltb sent n then None else Some "context canceled"%string.



Lemma sendPatches_differ_fails_at_once_witness :
  sendPatches liveCtx chooseLeft 0 brokenDiffer (differOf [added x64 x04]) []
  = Some ([], Some "read failed"%string)
  /\ sendPatches liveCtx chooseLeft 0
       (differOf [removed x61 x01]) brokenDiffer []
     = Some ([], Some "read failed"%string).
Proof.
  assert ("read failed"%string <> io_EOF) as He by discriminate.
  split.
  - apply (proj1 (sendPatches_differ_fails_at_once liveCtx chooseLeft 0
                    brokenDiffer (differOf [added x64 x04]) []
                    "read failed"%string He)); reflexivity.
  - apply (proj2 (sendPatches_differ_fails_at_once liveCtx chooseLeft 0
                    (differOf [removed x61 x01]) brokenDiffer []
                    "read failed"%string He));
      [left; discriminate | reflexivity | reflexivity].
Defined.

(** Left deletes a and changes b; right changes nothing. *)
Lemma sendPatches_right_unchanged_witness :
  sendPatches liveCtx rejectAll 0
    (differOf [removed x61 x01; modified x62 x02 x14]) (differOf []) []
  = Some ([], None).
Proof.
  apply (sendPatches_right_unchanged liveCtx rejectAll 0
           (differOf [removed x61 x01; modified x62 x02 x14]) (differOf []) []);
    [left; discriminate | reflexivity | reflexivity].
Defined.

(** Both sides change b, to different values, and the resolver takes the
    left one; the walk stays on b and sends the resolved patch until the
    context is cancelled. *)
Lemma sendPatches_sends_right_or_resolved_witness :
  exists sent,
    [(key1 x62, Some [x14]); (key1 x62, Some [x14])] = [] ++ sent
    /\ Forall (fun p =>
                 (exists d, d ∈ [modified x62 x02 xc8] /\ p = (Key d, To d))
                 \/ (exists dl dr resolved,
                       dl ∈ [modified x62 x02 x14]
                       /\ dr ∈ [modified x62 x02 xc8]
                       /\ bytesCompare (Key dl) (Key dr) = 0%Z
                       /\ equalDiffVals dl dr = false
                       /\ chooseLeft dl dr = (resolved, true)
                       /\ p = (Key resolved, To resolved))) sent.
Proof.
  apply (sendPatches_sends_right_or_resolved (cancelAfter 2) chooseLeft 5
           (differOf [modified x62 x02 x14]) (differOf [modified x62 x02 xc8])
           [] [(key1 x62, Some [x14]); (key1 x62, Some [x14])]
           (Some "context canceled"%string)).
  reflexivity.
Defined.

(** Left deletes a and changes c; right changes b and inserts d. *)
Lemma sendPatches_without_shared_keys_witness :
  sendPatches liveCtx rejectAll 5
    (differOf [removed x61 x01; modified x63 x03 x1e])
    (differOf [modified x62 x02 x14; added x64 x04]) []
  = Some ([(key1 x62, Some [x14]); (key1 x64, Some [x04])], None).
Proof.
  apply (sendPatches_without_shared_keys liveCtx rejectAll
           (differOf [removed x61 x01; modified x63 x03 x1e])
           (differOf [modified x62 x02 x14; added x64 x04]) []).
  - reflexivity.
  - reflexivity.
  - reflexivity.
  - intros dl dr Hl Hr. cbn in Hl, Hr.
    apply elem_of_cons in Hl as [->|Hl];
      [|apply elem_of_cons in Hl as [->|Hl]; [|by apply elem_of_nil in Hl]];
      (apply elem_of_cons in Hr as [->|Hr];
       [|apply elem_of_cons in Hr as [->|Hr]; [|by apply elem_of_nil in Hr]]);
      vm_compute; discriminate.
Defined.

(** *** Writing a child node and fetching it *)

(** [nodePair]: a key item and a value item. *)
Definition nodePair := (nodeItem * nodeItem)%type.

Definition indexOutOfRange : string := "index out of range".

Section ChildNodes.

(** The tuple constructor and field accessor of package val. *)
Variable NewTuple : list slice -> val.Tuple.
Variable GetField : val.Tuple -> nat -> slice.

(** Nodes and the node store: the node constructor, a node's cumulative
    count, [val.CloneTuple], and the store's [Write] and [Read]; [Write]
    hands back the store after the call. *)
Context {Node NodeStore : Type}.
Variable makeProllyNode : Z -> list nodeItem -> Node.
Variable cumulativeCount : Node -> Z.
Variable CloneTuple : val.Tuple -> val.Tuple.
Variable nsWrite : NodeStore -> Node -> NodeStore * Hash * error.
Variable nsRead : NodeStore -> Hash -> option Node * error.

Definition fetchChild (ns : NodeStore) (mt : metaValue) : option Node * error :=
  nsRead ns (GetRef GetField mt).

(** [writeNewChild]; [items[len(items)-2]] panics when the index is
    negative. *)
Definition writeNewChild (ns : NodeStore) (level : Z) (items : list nodeItem)
  : outcome (NodeStore * option Node * nodePair * error) :=
  let i := (Z.of_nat (length items) - 2)%Z in
  if (i <? 0)%Z then Panics indexOutOfRange
  else
    match items !! Z.to_nat i with
    | None => Panics indexOutOfRange
    | Some lastKey =>
        let child := makeProllyNode level items in
        let '(ns', ref, err) := nsWrite ns child in
        match err with
        | Some e => Returns (ns', None, (None, None), Some e)
        | None =>
            let metaKey := CloneTuple lastKey in
            let metaVal := newMetaValue NewTuple (cumulativeCount child) ref in
            Returns (ns', Some child, (metaKey, metaVal), None)
        end
    end.

(** X13. A child written with [writeNewChild] is found again through the pair
    handed back: the pair's key is a clone of the last key of the items
    (the item before the last), [fetchChild] on the pair's value asks the
    store for the very hash [Write] returned, and the value's count is the
    child's cumulative count, cut to 48 bits. *)
Theorem writeNewChild_then_fetchChild
    (ns ns' : NodeStore) (level : Z) (items : list nodeItem) (ref : Hash) :
  metaFieldsRoundTrip NewTuple GetField ->
  2 <= length items ->
  nsWrite ns (makeProllyNode level items) = (ns', ref, None) ->
  length ref = hashByteLen ->
  exists lastKey metaVal,
    items !! (length items - 2) = Some lastKey
    /\ writeNewChild ns level items
       = Returns (ns', Some (makeProllyNode level items),
                  (CloneTuple lastKey, metaVal), None)
    /\ (forall store, fetchChild store metaVal = nsRead store ref)
    /\ GetCumulativeCount GetField metaVal
       = (cumulativeCount (makeProllyNode level items) mod 2 ^ 48)%Z.
Proof.
  intros Hcodec Hlen Hw Href.
  destruct (lookup_lt_is_Some_2 items (length items - 2)) as [lastKey Hl];
    [lia|].
  set (count := cumulativeCount (makeProllyNode level items)).
  assert (length (val.WriteUint48 count) = val.uint48Size) as Hsix
    by apply val.length_putLittleEndian.
  destruct (Hcodec (val.WriteUint48 count) ref Hsix Href) as [Hc Hr].
  exists lastKey, (newMetaValue NewTuple count ref).
  split; [done|]. split; [|split].
  - unfold writeNewChild. cbv zeta.
    destruct (Z.ltb_spec (Z.of_nat (length items) - 2) 0) as [Hneg|_]; [lia|].
    replace (Z.to_nat (Z.of_nat (length items) - 2)) with (length items - 2)
      by lia.
    unfold nodeItem, val.Tuple in *. by rewrite Hl, Hw.
  - intros store. unfold fetchChild, GetRef, newMetaValue. by rewrite Hr.
  - unfold GetCumulativeCount, newMetaValue. rewrite Hc.
    apply val.ReadUint48_WriteUint48.
Qed.

(** X14. With fewer than two items [writeNewChild] panics before anything is
    written; when the store refuses the node, it returns the store's error
    with a nil node and an empty pair. *)
Theorem writeNewChild_failures
    (ns : NodeStore) (level : Z) (items : list nodeItem) :
  (length items < 2 -> writeNewChild ns level items = Panics indexOutOfRange)
  /\ (forall ns' ref e,
        2 <= length items ->
        nsWrite ns (makeProllyNode level items) = (ns', ref, Some e) ->
        writeNewChild ns level items
        = Returns (ns', None, (None, None), Some e)).
Proof.
  unfold writeNewChild. cbv zeta. split.
  - intros Hlen.
    by destruct (Z.ltb_spec (Z.of_nat (length items) - 2) 0) as [_|Hge];
      [|lia].
  - intros ns' ref e Hlen Hw.
    destruct (Z.ltb_spec (Z.of_nat (length items) - 2) 0) as [Hneg|_]; [lia|].
    destruct (lookup_lt_is_Some_2 items
                (Z.to_nat (Z.of_nat (length items) - 2))) as [lastKey Hl];
      [lia|].
    unfold nodeItem, val.Tuple in *. by rewrite Hl, Hw.
Qed.

End ChildNodes.

(** A store that keeps the nodes in the order written; the hash of a node
    is the number of nodes written before it, in the last byte. *)
Definition listNode := (Z * list nodeItem)%type.

Definition listHash (n : nat) : Hash :=
  replicate 19 x00 ++ [val.byteOfZ (Z.of_nat n)].

Definition listWrite (ns : list listNode) (nd : listNode)
  : list listNode * Hash * error :=
  (ns ++ [nd], listHash (length ns), None).

Definition listRead (ns : list listNode) (ref : Hash) : option listNode * error :=
  match ns !! Z.to_nat (val.byteToZ (default x00 (last ref))) with
  | Some nd => (Some nd, None)
  | None => (None, Some "not found"%string)
  end.

(** The pairs a leaf holds. *)
Definition pairCount (nd : listNode) : Z := (Z.of_nat (length nd.2) / 2)%Z.

(** A store that takes no node. *)
Definition fullWrite (ns : list listNode) (nd : listNode)
  : list listNode * Hash * error :=
  (ns, zeroHash, Some "disk full"%string).

Definition leafItems : list nodeItem :=
  [key1 x61; Some [x01]; key1 x62; Some [x02]].

Lemma writeNewChild_then_fetchChild_witness :
  exists lastKey metaVal,
    leafItems !! (length leafItems - 2) = Some lastKey
    /\ writeNewChild val.refNewTuple pair pairCount (fun t => t) listWrite
         [] 0 leafItems
       = Returns ([(0%Z, leafItems)], Some (0%Z, leafItems),
                  (lastKey, metaVal), None)
    /\ (forall store,
          fetchChild val.refGetField listRead store metaVal
          = listRead store (listHash 0))
    /\ GetCumulativeCount val.refGetField metaVal
       = (pairCount (0%Z, leafItems) mod 2 ^ 48)%Z.
Proof.
  apply (writeNewChild_then_fetchChild val.refNewTuple val.refGetField
           pair pairCount (fun t => t)
           listWrite listRead [] [(0%Z, leafItems)] 0 leafItems (listHash 0)).
  - exact refCodec_metaFieldsRoundTrip.
  - cbn. lia.
  - reflexivity.
  - reflexivity.
Defined.

Lemma writeNewChild_failures_witness :
  writeNewChild val.refNewTuple pair pairCount (fun t => t) listWrite
    [] 0 [key1 x61]
  = Panics indexOutOfRange
  /\ writeNewChild val.refNewTuple pair pairCount (fun t => t) fullWrite
       [] 0 leafItems
     = Returns ([], None, (None, None), Some "disk full"%string).
Proof.
  split.
  - apply (proj1 (writeNewChild_failures val.refNewTuple pair
                    pairCount (fun t => t)
                    listWrite [] 0 [key1 x61])).
    cbn. lia.
  - apply (proj2 (writeNewChild_failures val.refNewTuple pair
                    pairCount (fun t => t)
                    fullWrite [] 0 leafItems) [] zeroHash "disk full"%string).
    + cbn. lia.
    + reflexivity.
Defined.

End prolly.

(** ** package dsess *)
Module dsess.

(** The [index.Writer] interface, as far as [TableWriter] calls it.  A
    writer is a state [W]; every method returns the state after the call
    and its error. *)
Class Writer (W Row : Type) := {
  wInsert : Row -> W -> W * error;
  wDelete : Row -> W -> W * error;
  wUpdate : Row -> Row -> W -> W * error;
  wDiscardChanges : error -> W -> W * error;
  wStatementComplete : W -> W * error;
  wClose : W -> W * error
}.

(** The cells [signal] pointers point to: [closed] of each. *)
Abbreviation heap := (gmap nat bool).

Section TableWriter.
Context {W Row : Type} `{Writer W Row}.

(** [TableWriter]: [indexes] are the entries of the map in the order the
    range loops visit them; [signal] is a pointer, shared by every copy of
    the writer. *)
Record TableWriter := {
  primary : W;
  indexes : list (string * W);
  signal : nat
}.

Definition closedError : string := "table editor was closed".

Definition checkClosed (ed : TableWriter) (h : heap) : error :=
  if default false (h !! signal ed) then Some closedError else None.

(** [for _, dep := range ed.indexes { if err = f(dep); err != nil { return err } }] *)
Fixpoint eachIndex (f : W -> W * error) (deps : list (string * W))
  : list (string * W) * error :=
  match deps with
  | [] => ([], None)
  | (name, dep) :: rest =>
      let '(dep', err) := f dep in
      match err with
      | Some e => ((name, dep') :: rest, Some e)
      | None =>
          let '(rest', err') := eachIndex f rest in
          ((name, dep') :: rest', err')
      end
  end.

(** The body [Insert], [Delete], [Update], [DiscardChanges] and
    [StatementComplete] share: the closed check, the secondary indexes,
    then the primary index. *)
Definition guarded (f : W -> W * error) (ed : TableWriter) (h : heap)
  : TableWriter * heap * error :=
  match checkClosed ed h with
  | Some e => (ed, h, Some e)
  | None =>
      let '(deps, err) := eachIndex f (indexes ed) in
      match err with
      | Some e =>
          ({| primary := primary ed; indexes := deps; signal := signal ed |},
           h, Some e)
      | None =>
          let '(p, err') := f (primary ed) in
          ({| primary := p; indexes := deps; signal := signal ed |}, h, err')
      end
  end.

Definition Insert (ed : TableWriter) (sqlRow : Row) := guarded (wInsert sqlRow) ed.
Definition Delete (ed : TableWriter) (sqlRow : Row) := guarded (wDelete sqlRow) ed.
Definition Update (ed : TableWriter) (oldRow newRow : Row) :=
  guarded (wUpdate oldRow newRow) ed.
Definition DiscardChanges (ed : TableWriter) (errorEncountered : error) :=
  guarded (wDiscardChanges errorEncountered) ed.
Definition StatementComplete (ed : TableWriter) := guarded wStatementComplete ed.

(** [for _, ie := range ed.indexes { if cerr := ie.Close(ctx); cerr != nil { err = nil } }] *)
Fixpoint closeIndexes (deps : list (string * W)) (err : error)
  : list (string * W) * error :=
  match deps with
  | [] => ([], err)
  | (name, ie) :: rest =>
      let '(ie', cerr) := wClose ie in
      let err' := match cerr with Some _ => None | None => err end in
      let '(rest', err'') := closeIndexes rest err' in
      ((name, ie') :: rest', err'')
  end.

(** [Close]: close the secondary indexes, then [ed.signal.closed = true]. *)
Definition Close (ed : TableWriter) (h : heap) : TableWriter * heap * error :=
  let '(deps, err) := closeIndexes (indexes ed) None in
  ({| primary := primary ed; indexes := deps; signal := signal ed |},
   <[signal ed := true]> h, err).

Definition heapAfterClose (ed : TableWriter) (h : heap) : heap :=
  snd (fst (Close ed h)).

Lemma closeIndexes_nil (deps : list (string * W)) :
  snd (closeIndexes deps None) = None.
Proof.
  induction deps as [|[name ie] rest IH]; [done|]. cbn [closeIndexes].
  destruct (wClose ie) as [ie' [e|]];
    destruct (closeIndexes rest None) as [rest' err'']; done.
Qed.

Lemma guarded_closed (f : W -> W * error) (ed : TableWriter) (h : heap) :
  h !! signal ed = Some true -> guarded f ed h = (ed, h, Some closedError).
Proof. intros E. unfold guarded, checkClosed. by rewrite E. Qed.

(** C10. [Close] returns nil whatever the secondary-index writers return
    from their own [Close], and sets the closed flag; from then on
    [Insert], [Delete], [Update], [DiscardChanges] and [StatementComplete]
    on any copy of the writer return "table editor was closed" and change
    nothing, so the flag stays set for every later call. *)
Theorem Close_returns_nil_and_closes (ed : TableWriter) (h : heap) :
  snd (Close ed h) = None
  /\ heapAfterClose ed h !! signal ed = Some true
  /\ forall (ed' : TableWriter) (h' : heap),
       signal ed' = signal ed -> h' !! signal ed = Some true ->
       (forall row, Insert ed' row h' = (ed', h', Some closedError))
       /\ (forall row, Delete ed' row h' = (ed', h', Some closedError))
       /\ (forall old new, Update ed' old new h' = (ed', h', Some closedError))
       /\ (forall e, DiscardChanges ed' e h' = (ed', h', Some closedError))
       /\ StatementComplete ed' h' = (ed', h', Some closedError).
Proof.
  unfold heapAfterClose, Close.
  pose proof (closeIndexes_nil (indexes ed)) as Hnil.
  destruct (closeIndexes (indexes ed) None) as [deps err].
  cbn [fst snd signal] in *.
  split; [done|]. split; [by rewrite lookup_insert_eq|].
  intros ed' h' Hsig Hclosed. rewrite <- Hsig in Hclosed.
  unfold Insert, Delete, Update, DiscardChanges, StatementComplete.
  repeat split; intros; by apply guarded_closed.
Qed.

End TableWriter.

(** *** A writer whose [Close] fails *)

(** Counts the rows written; [Close] reports an error. *)
#[local] Instance failingWriter : Writer nat unit := {|
  wInsert := fun _ w => (S w, None);
  wDelete := fun _ w => (Nat.pred w, None);
  wUpdate := fun _ _ w => (w, None);
  wDiscardChanges := fun _ _ => (0, None);
  wStatementComplete := fun w => (w, None);
  wClose := fun w => (w, Some "write failed"%string)
|}.

Definition exampleWriter : TableWriter :=
  {| primary := 0; indexes := [("idx_a"%string, 0); ("idx_b"%string, 0)];
     signal := 7 |}.

(** Both secondary indexes fail to close; [Close] returns nil, and the
    next [Insert] is refused. *)
Example Close_discards_index_errors :
  wClose (W := nat) 0 = (0, Some "write failed"%string)
  /\ snd (Close exampleWriter ∅) = None
  /\ snd (Insert exampleWriter tt (heapAfterClose exampleWriter ∅))
     = Some closedError.
Proof. split; [|split]; reflexivity. Qed.

(** *** Writes through a table writer, and the write session *)

(** [WriteSession]: the editors by table name (the mutex guards the map
    and has no part in a single caller's view). *)
Record WriteSession {W : Type} := { editors : gmap string (@TableWriter W) }.
Arguments WriteSession W : clear implicits.

Section WriteSession.
Context {W Row : Type} `{Writer W Row}.

(** What [newTableEditor] reads off the table: the index writers
    ([index.WritersFromTable], primary first, the secondary ones in the
    order a range loop visits them), the auto-increment column, the
    table's auto-increment value and its conversion. *)
Context {Table Col NomsValue Value : Type}.
Variable WritersFromTable : Table -> result (W * list (string * W)).
Variable autoIncColFromTable : Table -> result Col.
Variable GetAutoIncrementValue : Table -> result NomsValue.
Variable ConvertNomsValueToValue : Col -> NomsValue -> result Value.

(** [newTableEditor]: a writer over the table's indexes with a [signal]
    cell of its own, not closed.  The two auto-increment reads panic on
    error. *)
Definition newTableEditor (tbl : Table) (h : heap)
  : outcome (result (@TableWriter W * heap)) :=
  match WritersFromTable tbl with
  | Err e => Returns (Err e)
  | Ok (p, deps) =>
      match autoIncColFromTable tbl with
      | Err e => Returns (Err e)
      | Ok autoCol =>
          match GetAutoIncrementValue tbl with
          | Err e => Panics e
          | Ok v =>
              match ConvertNomsValueToValue autoCol v with
              | Err e => Panics e
              | Ok _ =>
                  let sig := fresh (dom h) in
                  Returns (Ok ({| primary := p; indexes := deps;
                                  signal := sig |},
                               <[sig := false]> h))
              end
          end
      end
  end.

(** [GetTableWriter]: the editor kept under [name], or a new one, which
    is then kept. *)
Definition GetTableWriter (es : WriteSession W) (name : string) (tbl : Table)
    (h : heap)
  : outcome (result (@TableWriter W) * WriteSession W * heap) :=
  match editors es !! name with
  | Some edit => Returns (Ok edit, es, h)
  | None =>
      match newTableEditor tbl h with
      | Panics msg => Panics msg
      | Returns (Err e) => Returns (Err e, es, h)
      | Returns (Ok (edit, h')) =>
          Returns (Ok edit, {| editors := <[name := edit]> (editors es) |}, h')
      end
  end.

(** One turn of the loop of [CloseEditors]:
    [if cerr := edit.Close(ctx); cerr != nil { err = cerr }; delete(es.editors, name)]. *)
Definition closeEditor (acc : gmap string (@TableWriter W) * heap * error)
    (entry : string * @TableWriter W)
  : gmap string (@TableWriter W) * heap * error :=
  let '(eds, h, err) := acc in
  let '(_, h', cerr) := Close entry.2 h in
  (delete entry.1 eds, h', match cerr with Some e => Some e | None => err end).

(** [CloseEditors]: close and forget every editor of the session.  [order]
    is the order in which the range loop visits the entries of the map. *)
Definition CloseEditors (order : list (string * @TableWriter W))
    (es : WriteSession W) (h : heap)
  : WriteSession W * heap * error :=
  let '(eds, h', err) := foldl closeEditor (editors es, h, None) order in
  ({| editors := eds |}, h', err).

(** [order] visits every entry of the session once. *)
Definition visitsAll (order : list (string * @TableWriter W))
    (es : WriteSession W) : Prop :=
  order ≡ₚ map_to_list (editors es).

(** Every editor of the session has a [signal] cell, and no two editors
    share one. *)
Definition signalsApart (es : WriteSession W) (h : heap) : Prop :=
  (forall name ed, editors es !! name = Some ed -> is_Some (h !! signal ed))
  /\ (forall n1 n2 e1 e2,
        editors es !! n1 = Some e1 -> editors es !! n2 = Some e2 ->
        signal e1 = signal e2 -> n1 = n2).

Lemma checkClosed_None (ed : @TableWriter W) (h : heap) :
  checkClosed ed h = None <-> h !! signal ed <> Some true.
Proof.
  unfold checkClosed. destruct (h !! signal ed) as [[|]|]; cbn; split; done.
Qed.

Lemma eachIndex_accepted (f : W -> W * error) (deps : list (string * W)) :
  Forall (fun dep => snd (f dep.2) = None) deps ->
  eachIndex f deps = ((fun dep => (dep.1, fst (f dep.2))) <$> deps, None).
Proof.
  induction deps as [|[name dep] rest IH]; intros Hall; [done|].
  apply Forall_cons in Hall as [Hd Hrest]. cbn in *.
  destruct (f dep) as [dep' err]. cbn in Hd. subst err.
  by rewrite IH.
Qed.

Lemma eachIndex_refused (f : W -> W * error)
    (pre post : list (string * W)) name dep dep' e :
  Forall (fun d => snd (f d.2) = None) pre ->
  f dep = (dep', Some e) ->
  eachIndex f (pre ++ (name, dep) :: post)
  = (((fun d => (d.1, fst (f d.2))) <$> pre) ++ (name, dep') :: post, Some e).
Proof.
  intros Hpre Hf. induction pre as [|[n d] pre IH]; cbn.
  - by rewrite Hf.
  - apply Forall_cons in Hpre as [Hd Hpre]. cbn in Hd.
    destruct (f d) as [d' err]. cbn in Hd. subst err.
    by rewrite IH.
Qed.

(** X15. On an open writer whose secondary indexes all accept, [Insert],
    [Delete], [Update], [DiscardChanges] and [StatementComplete] reach
    every secondary index and then the primary, and return the primary's
    own error; the closed flags are not touched. *)
Theorem guarded_when_indexes_accept (f : W -> W * error)
    (ed : @TableWriter W) (h : heap) :
  checkClosed ed h = None ->
  Forall (fun dep => snd (f dep.2) = None) (indexes ed) ->
  guarded f ed h
  = ({| primary := fst (f (primary ed));
        indexes := (fun dep => (dep.1, fst (f dep.2))) <$> indexes ed;
        signal := signal ed |},
     h, snd (f (primary ed))).
Proof.
  intros Hopen Hall. unfold guarded. rewrite Hopen.
  rewrite eachIndex_accepted by done.
  by destruct (f (primary ed)).
Qed.

(** X16. When a secondary index refuses, the call stops there with its error:
    the indexes visited before it keep the write, the ones after it and
    the primary are not reached, and nothing is undone. *)
Theorem guarded_when_an_index_refuses (f : W -> W * error)
    (ed : @TableWriter W) (h : heap)
    (pre post : list (string * W)) name dep dep' e :
  checkClosed ed h = None ->
  indexes ed = pre ++ (name, dep) :: post ->
  Forall (fun d => snd (f d.2) = None) pre ->
  f dep = (dep', Some e) ->
  guarded f ed h
  = ({| primary := primary ed;
        indexes := ((fun d => (d.1, fst (f d.2))) <$> pre)
                     ++ (name, dep') :: post;
        signal := signal ed |},
     h, Some e).
Proof.
  intros Hopen Hidx Hpre Hf. unfold guarded. rewrite Hopen, Hidx.
  by rewrite (eachIndex_refused f pre post name dep dep' e).
Qed.

Lemma closeIndexes_all (deps : list (string * W)) (err : error) :
  fst (closeIndexes deps err) = (fun d => (d.1, fst (wClose d.2))) <$> deps.
Proof.
  revert err; induction deps as [|[name ie] rest IH]; intros err; [done|].
  cbn [closeIndexes]. destruct (wClose ie) as [ie' cerr] eqn:E.
  specialize (IH (match cerr with Some _ => None | None => err end)).
  destruct (closeIndexes rest _) as [rest' err'']. cbn in *.
  by rewrite IH, E.
Qed.

(** X17. [Close] in full: it calls [Close] on every secondary index writer,
    failing or not, and never on the primary; it sets the writer's own
    closed flag and no other; it makes no closed check of its own, so it
    does the same on a writer already closed. *)
Theorem Close_closes_every_index (ed : @TableWriter W) (h : heap) :
  Close ed h
  = ({| primary := primary ed;
        indexes := (fun d => (d.1, fst (wClose d.2))) <$> indexes ed;
        signal := signal ed |},
     <[signal ed := true]> h, None).
Proof.
  unfold Close.
  pose proof (closeIndexes_all (indexes ed) None) as Hall.
  pose proof (closeIndexes_nil (indexes ed)) as Hnil.
  destruct (closeIndexes (indexes ed) None) as [deps err]. cbn in *.
  by subst.
Qed.

(** X18. An editor already kept under a name is handed out again as it is,
    whatever table is passed; session and flags stay as they are.  So a
    second [GetTableWriter] gives the editor of the first. *)
Theorem GetTableWriter_twice (es es' : WriteSession W) (name : string)
    (tbl tbl' : Table) (h h' : heap) (ed : @TableWriter W) :
  GetTableWriter es name tbl h = Returns (Ok ed, es', h') ->
  GetTableWriter es' name tbl' h' = Returns (Ok ed, es', h').
Proof.
  unfold GetTableWriter. intros E.
  destruct (editors es !! name) as [edit|] eqn:Hl.
  - injection E as <- <- <-. by rewrite Hl.
  - destruct (newTableEditor tbl h) as [[[edit h1]|e]|]; try discriminate.
    injection E as <- <- <-. cbn. by rewrite lookup_insert_eq.
Qed.

(** X19. A new editor comes open and with a [signal] cell no other editor of
    the session has; the flags of the other editors are as before. *)
Theorem GetTableWriter_new_editor (es es' : WriteSession W) (name : string)
    (tbl : Table) (h h' : heap) (ed : @TableWriter W) :
  signalsApart es h ->
  editors es !! name = None ->
  GetTableWriter es name tbl h = Returns (Ok ed, es', h') ->
  signalsApart es' h'
  /\ checkClosed ed h' = None
  /\ editors es' = <[name := ed]> (editors es)
  /\ forall other ed', editors es !! other = Some ed' ->
       h' !! signal ed' = h !! signal ed'.
Proof.
  intros [Hcell Hapart] Hnone. unfold GetTableWriter, newTableEditor.
  rewrite Hnone. intros E.
  destruct (WritersFromTable tbl) as [[p deps]|]; [|discriminate].
  destruct (autoIncColFromTable tbl) as [autoCol|]; [|discriminate].
  destruct (GetAutoIncrementValue tbl) as [v|]; [|discriminate].
  destruct (ConvertNomsValueToValue autoCol v); [|discriminate].
  injection E as <- <- <-. unfold signalsApart. cbn.
  assert (h !! fresh (dom h) = None) as Hfresh
    by (apply not_elem_of_dom, is_fresh).
  assert (forall other ed', editors es !! other = Some ed' ->
            signal ed' <> fresh (dom h)) as Hne.
  { intros other ed' Ho Heq. destruct (Hcell _ _ Ho) as [b Hb].
    rewrite Heq in Hb. congruence. }
  split; [split|split; [|split]].
  - intros n e. rewrite lookup_insert. case_decide as Hn.
    + intros [= <-]. cbn. rewrite lookup_insert_eq. by eexists.
    + intros Ho. rewrite lookup_insert_ne by (symmetry; by eapply Hne).
      by eapply Hcell.
  - intros n1 n2 e1 e2. rewrite !lookup_insert.
    repeat case_decide; subst; try done.
    + intros [= <-] Ho Hs. cbn in Hs. symmetry in Hs. by apply Hne in Ho.
    + intros Ho [= <-] Hs. cbn in Hs. by apply Hne in Ho.
    + apply Hapart.
  - unfold checkClosed. cbn. by rewrite lookup_insert_eq.
  - done.
  - intros other ed' Ho. rewrite lookup_insert_ne; [done|].
    symmetry. by eapply Hne.
Qed.

(** X20. Closing one editor of a session leaves every other editor as open or
    closed as it was. *)
Theorem Close_leaves_other_editors (es : WriteSession W) (h : heap)
    (n1 n2 : string) (e1 e2 : @TableWriter W) :
  signalsApart es h ->
  editors es !! n1 = Some e1 -> editors es !! n2 = Some e2 -> n1 <> n2 ->
  checkClosed e2 (heapAfterClose e1 h) = checkClosed e2 h.
Proof.
  intros [_ Hapart] H1 H2 Hne.
  unfold heapAfterClose, Close.
  destruct (closeIndexes (indexes e1) None) as [deps err]. cbn.
  unfold checkClosed. rewrite lookup_insert_ne; [done|].
  intros Hs. apply Hne. by eapply Hapart.
Qed.

Lemma closeEditor_step (eds : gmap string (@TableWriter W)) (h : heap)
    (err : error) (entry : string * @TableWriter W) :
  closeEditor (eds, h, err) entry
  = (delete entry.1 eds, <[signal entry.2 := true]> h, err).
Proof.
  unfold closeEditor, Close.
  pose proof (closeIndexes_nil (indexes entry.2)) as Hnil.
  destruct (closeIndexes (indexes entry.2) None) as [deps cerr]. cbn in *.
  by subst.
Qed.

Lemma foldl_closeEditor (l : list (string * @TableWriter W)) :
  forall (eds : gmap string (@TableWriter W)) (h : heap) (err : error),
    foldl closeEditor (eds, h, err) l
    = (foldl (fun m entry => delete entry.1 m) eds l,
       foldl (fun h entry => <[signal entry.2 := true]> h) h l, err).
Proof.
  induction l as [|entry l IH]; intros eds h err; [done|].
  cbn [foldl]. by rewrite closeEditor_step, IH.
Qed.

Lemma foldl_delete_lookup (l : list (string * @TableWriter W)) :
  forall (eds : gmap string (@TableWriter W)) (k : string),
    foldl (fun m entry => delete entry.1 m) eds l !! k
    = if decide (k ∈ l.*1) then None else eds !! k.
Proof.
  induction l as [|[n ed] l IH]; intros eds k; cbn.
  - rewrite decide_False; [done|]. by intros ?%elem_of_nil.
  - rewrite IH, lookup_delete.
    destruct (decide (k ∈ l.*1)) as [Hin|Hnin].
    + rewrite decide_True; [done|]. apply elem_of_cons. by right.
    + destruct (decide (n = k)) as [->|Hnk].
      * rewrite decide_True; [done|]. apply elem_of_cons. by left.
      * rewrite decide_False; [done|].
        intros [->|Hin]%elem_of_cons; done.
Qed.

Lemma foldl_close_flags (l : list (string * @TableWriter W)) :
  forall (h : heap) (loc : nat),
    foldl (fun h entry => <[signal entry.2 := true]> h) h l !! loc
    = if decide (loc ∈ (fun entry => signal entry.2) <$> l)
      then Some true else h !! loc.
Proof.
  induction l as [|[n ed] l IH]; intros h loc; cbn.
  - rewrite decide_False; [done|]. by intros ?%elem_of_nil.
  - rewrite IH, lookup_insert.
    destruct (decide (loc ∈ (fun entry => signal entry.2) <$> l))
      as [Hin|Hnin].
    + rewrite decide_True; [done|]. apply elem_of_cons. by right.
    + destruct (decide (signal ed = loc)) as [<-|Hnk].
      * rewrite decide_True; [done|]. apply elem_of_cons. by left.
      * rewrite decide_False; [done|].
        intros [->|Hin]%elem_of_cons; done.
Qed.

(** X21. [CloseEditors] always returns nil and leaves the session without
    editors, in whatever order the loop visits them.  Every editor it held
    is closed: whatever is called on a copy handed out before returns
    "table editor was closed".  No other closed flag changes. *)
Theorem CloseEditors_closes_all (order : list (string * @TableWriter W))
    (es : WriteSession W) (h : heap) :
  visitsAll order es ->
  exists h',
    CloseEditors order es h = ({| editors := ∅ |}, h', None)
    /\ (forall name ed, editors es !! name = Some ed ->
          h' !! signal ed = Some true
          /\ forall f, guarded f ed h' = (ed, h', Some closedError))
    /\ (forall loc,
          (forall name ed, editors es !! name = Some ed -> signal ed <> loc) ->
          h' !! loc = h !! loc).
Proof.
  unfold visitsAll. intros Hvisit.
  assert (forall name ed, (name, ed) ∈ order <-> editors es !! name = Some ed)
    as Hin.
  { intros name ed. rewrite Hvisit. apply elem_of_map_to_list. }
  clear Hvisit.
  unfold CloseEditors. rewrite foldl_closeEditor.
  eexists. split; [|split].
  - f_equal. f_equal. f_equal. apply map_eq. intros k.
    rewrite foldl_delete_lookup, lookup_empty.
    case_decide as Hk; [done|].
    destruct (editors es !! k) as [ed|] eqn:Hl; [|done].
    exfalso. apply Hk. apply list_elem_of_fmap.
    exists (k, ed). split; [done|]. by apply Hin.
  - intros name ed Hl.
    assert (foldl (fun h entry => <[signal entry.2 := true]> h) h order
              !! signal ed = Some true) as Hflag.
    { rewrite foldl_close_flags. case_decide as Hk; [done|].
      exfalso. apply Hk. apply list_elem_of_fmap.
      exists (name, ed). split; [done|]. by apply Hin. }
    split; [done|]. intros f. by apply guarded_closed.
  - intros loc Hloc. rewrite foldl_close_flags.
    case_decide as Hk; [|done]. exfalso.
    apply list_elem_of_fmap in Hk as ([name ed] & -> & Hk).
    apply Hin in Hk. by eapply Hloc.
Qed.

End WriteSession.

(** *** Editors and sessions on small tables *)

Lemma guarded_when_indexes_accept_witness :
  Insert exampleWriter tt ∅
  = ({| primary := 1; indexes := [("idx_a"%string, 1); ("idx_b"%string, 1)];
        signal := 7 |}, ∅, None).
Proof.
  refine (guarded_when_indexes_accept (wInsert tt) exampleWriter ∅ _ _).
  - reflexivity.
  - repeat constructor.
Defined.

(** A unique index: the keys it holds.  [Insert] and [Update] refuse a key
    it holds already. *)
#[local] Instance uniqueWriter : Writer (list nat) nat := {|
  wInsert := fun row w =>
    if existsb (Nat.eqb row) w then (w, Some "duplicate key"%string)
    else (row :: w, None);
  wDelete := fun row w => (List.remove Nat.eq_dec row w, None);
  wUpdate := fun old new w =>
    if existsb (Nat.eqb new) w then (w, Some "duplicate key"%string)
    else (new :: List.remove Nat.eq_dec old w, None);
  wDiscardChanges := fun _ w => (w, None);
  wStatementComplete := fun w => (w, None);
  wClose := fun w => (w, None)
|}.

(** The second of three unique indexes holds key 5 already. *)
Definition uniqueTable : @TableWriter (list nat) :=
  {| primary := [1; 2];
     indexes := [("idx_a"%string, []); ("idx_b"%string, [5]);
                 ("idx_c"%string, [])];
     signal := 3 |}.

Lemma guarded_when_an_index_refuses_witness :
  Insert uniqueTable 5 ∅
  = ({| primary := [1; 2];
        indexes := [("idx_a"%string, [5]); ("idx_b"%string, [5]);
                    ("idx_c"%string, [])];
        signal := 3 |}, ∅, Some "duplicate key"%string).
Proof.
  refine (guarded_when_an_index_refuses (wInsert 5) uniqueTable ∅
            [("idx_a"%string, [])] [("idx_c"%string, [])]
            "idx_b"%string [5] [5] "duplicate key"%string _ _ _ _).
  - reflexivity.
  - reflexivity.
  - repeat constructor.
  - reflexivity.
Defined.

(** A table is its auto-increment value; every table has the primary
    index and one secondary index. *)
Definition tableWriters (tbl : nat) : result (nat * list (string * nat)) :=
  Ok (0, [("idx_a"%string, 0)]).
Definition tableAutoCol (tbl : nat) : result unit := Ok tt.
Definition tableAutoValue (tbl : nat) : result nat := Ok tbl.
Definition convertAuto (col : unit) (v : nat) : result nat := Ok v.

Definition ordersWriter : @TableWriter nat :=
  {| primary := 0; indexes := [("idx_a"%string, 0)]; signal := 0 |}.
Definition itemsWriter : @TableWriter nat :=
  {| primary := 0; indexes := [("idx_a"%string, 0)]; signal := 1 |}.

Definition oneEditor : WriteSession nat :=
  {| editors := {["orders"%string := ordersWriter]} |}.
Definition twoEditors : WriteSession nat :=
  {| editors := <["items"%string := itemsWriter]> (editors oneEditor) |}.

Lemma GetTableWriter_twice_witness :
  GetTableWriter tableWriters tableAutoCol tableAutoValue convertAuto
    oneEditor "orders" 9 {[0 := false]}
  = Returns (Ok ordersWriter, oneEditor, {[0 := false]}).
Proof.
  apply (GetTableWriter_twice tableWriters tableAutoCol tableAutoValue
           convertAuto {| editors := ∅ |} oneEditor "orders" 1 9
           ∅ {[0 := false]} ordersWriter).
  vm_compute. reflexivity.
Defined.

Lemma oneEditor_signalsApart : signalsApart oneEditor {[0 := true]}.
Proof.
  split.
  - intros name ed Hl. cbn in Hl.
    apply lookup_singleton_Some in Hl as [_ <-]. by exists true.
  - intros n1 n2 e1 e2 H1 H2 _. cbn in H1, H2.
    apply lookup_singleton_Some in H1 as [<- _].
    by apply lookup_singleton_Some in H2 as [<- _].
Qed.

(** The session holds the editor of orders, closed; the editor made for
    items is open and has a cell of its own. *)
Lemma GetTableWriter_new_editor_witness :
  signalsApart twoEditors {[1 := false; 0 := true]}
  /\ checkClosed itemsWriter {[1 := false; 0 := true]} = None
  /\ editors twoEditors = <["items"%string := itemsWriter]> (editors oneEditor)
  /\ forall other ed', editors oneEditor !! other = Some ed' ->
       ({[1 := false; 0 := true]} : heap) !! signal ed'
       = ({[0 := true]} : heap) !! signal ed'.
Proof.
  apply (GetTableWriter_new_editor tableWriters tableAutoCol tableAutoValue
           convertAuto oneEditor twoEditors "items" 4
           {[0 := true]} {[1 := false; 0 := true]} itemsWriter).
  - exact oneEditor_signalsApart.
  - reflexivity.
  - vm_compute. reflexivity.
Defined.

Lemma twoEditors_signalsApart :
  signalsApart twoEditors {[1 := false; 0 := false]}.
Proof.
  split.
  - intros name ed Hl. cbn in Hl.
    apply lookup_insert_Some in Hl as [[_ <-]|[_ Hl]];
      [|apply lookup_singleton_Some in Hl as [_ <-]]; by exists false.
  - intros n1 n2 e1 e2 H1 H2 Hs. cbn in H1, H2.
    apply lookup_insert_Some in H1 as [[<- <-]|[_ H1]];
      [|apply lookup_singleton_Some in H1 as [<- <-]];
      (apply lookup_insert_Some in H2 as [[<- <-]|[_ H2]];
       [|apply lookup_singleton_Some in H2 as [<- <-]]);
      done.
Qed.

Lemma Close_leaves_other_editors_witness :
  checkClosed itemsWriter (heapAfterClose ordersWriter {[1 := false; 0 := false]})
  = checkClosed itemsWriter {[1 := false; 0 := false]}.
Proof.
  apply (Close_leaves_other_editors twoEditors {[1 := false; 0 := false]}
           "orders" "items" ordersWriter itemsWriter).
  - exact twoEditors_signalsApart.
  - reflexivity.
  - reflexivity.
  - discriminate.
Defined.

Lemma CloseEditors_closes_all_witness :
  exists h',
    CloseEditors [("orders"%string, ordersWriter); ("items"%string, itemsWriter)]
      twoEditors {[1 := false; 0 := false]}
    = ({| editors := ∅ |}, h', None)
    /\ (forall name ed, editors twoEditors !! name = Some ed ->
          h' !! signal ed = Some true
          /\ forall f, guarded f ed h' = (ed, h', Some closedError))
    /\ (forall loc,
          (forall name ed, editors twoEditors !! name = Some ed ->
             signal ed <> loc) ->
          h' !! loc = ({[1 := false; 0 := false]} : heap) !! loc).
Proof.
  apply (CloseEditors_closes_all
           [("orders"%string, ordersWriter); ("items"%string, itemsWriter)]
           twoEditors {[1 := false; 0 := false]}).
  unfold visitsAll. vm_compute.
  first [reflexivity | apply perm_swap].
Defined.

End dsess.

(** ** package durable *)
Module durable.

(** [*types.NomsBinFormat]: the two formats the switches name, and any
    other. *)
Inductive NomsBinFormat :=
| Format_LD_1
| Format_DOLT_1
| Format_other (name : string).

(** A failed type assertion [x.(T)]. *)
Definition conversionPanic : string := "interface conversion".

Section Index.

(** The noms value store and maps and the prolly maps the package wraps:
    [vrw.Format()], [prolly.Map.Format()], a [types.Map] and a [types.Ref]
    as a [types.Value] and the type assertions back, [refFromNomsValue],
    [Ref.TargetValue], [prolly.ValueFromMap] and [prolly.MapFromValue],
    [Map.MaybeGet], [Map.Edit().Set(k, v).Map(ctx)] and
    [Map.Edit().Remove(k).Map(ctx)], [sch.Indexes().GetByName(name).Schema()],
    the zero [types.Map{}] and the error [errNbfUnkown]. *)
Context {VRW NomsMap ProllyMap Value Ref Schema : Type}.
Variable vrwFormat : VRW -> NomsBinFormat.
Variable prollyFormat : ProllyMap -> NomsBinFormat.
Variable mapValue : NomsMap -> Value.
Variable refValue : Ref -> Value.
Variable asMap : Value -> option NomsMap.
Variable asRef : Value -> option Ref.
Variable refFromNomsValue : VRW -> Value -> result Ref.
Variable TargetValue : Ref -> VRW -> option Value * error.
Variable ValueFromMap : ProllyMap -> Value.
Variable MapFromValue : option Value -> Schema -> VRW -> ProllyMap.
Variable MaybeGet : NomsMap -> string -> option Value * bool * error.
Variable mapSet : NomsMap -> string -> Ref -> result NomsMap.
Variable mapRemove : NomsMap -> string -> result NomsMap.
Variable indexSchema : Schema -> string -> outcome Schema.
Variable zeroMap : NomsMap.
Variable errNbfUnkown : string.

(** [Index]: the interface, with its two implementations [nomsIndex] and
    [prollyIndex]. *)
Inductive Index :=
| nomsIndex (index : NomsMap) (vrw : VRW)
| prollyIndex (index : ProllyMap).

Definition Format (i : Index) : NomsBinFormat :=
  match i with
  | nomsIndex _ vrw => vrwFormat vrw
  | prollyIndex index => prollyFormat index
  end.

Definition IndexFromNomsMap (m : NomsMap) (vrw : VRW) : Index := nomsIndex m vrw.

Definition IndexFromProllyMap (m : ProllyMap) : Index := prollyIndex m.

(** [n, ok := i.(nomsIndex); if !ok { return types.Map{}, fmt.Errorf(...) }] *)
Definition NomsMapFromIndex (i : Index) : NomsMap * error :=
  match i with
  | nomsIndex index _ => (index, None)
  | prollyIndex _ => (zeroMap, Some "unable to unwrap types.Map from Index"%string)
  end.

(** [return i.(prollyIndex).index] *)
Definition ProllyMapFromIndex (i : Index) : outcome ProllyMap :=
  match i with
  | prollyIndex index => Returns index
  | nomsIndex _ _ => Panics conversionPanic
  end.

Definition RefFromIndex (vrw : VRW) (idx : Index) : outcome (result Ref) :=
  match Format idx with
  | Format_LD_1 =>
      match idx with
      | nomsIndex index _ => Returns (refFromNomsValue vrw (mapValue index))
      | prollyIndex _ => Panics conversionPanic
      end
  | Format_DOLT_1 =>
      match idx with
      | prollyIndex index => Returns (refFromNomsValue vrw (ValueFromMap index))
      | nomsIndex _ _ => Panics conversionPanic
      end
  | Format_other _ => Returns (Err errNbfUnkown)
  end.

Definition IndexFromRef (vrw : VRW) (sch : Schema) (r : Ref)
  : outcome (result Index) :=
  match TargetValue r vrw with
  | (_, Some e) => Returns (Err e)
  | (v, None) =>
      match vrwFormat vrw with
      | Format_LD_1 =>
          match v ≫= asMap with
          | Some m => Returns (Ok (IndexFromNomsMap m vrw))
          | None => Panics conversionPanic
          end
      | Format_DOLT_1 =>
          Returns (Ok (IndexFromProllyMap (MapFromValue v sch vrw)))
      | Format_other _ => Returns (Err errNbfUnkown)
      end
  end.

(** [nomsIndexSet], the one implementation of [IndexSet]. *)
Record nomsIndexSet := { indexes : NomsMap; vrw : VRW }.

Definition notFound (name : string) : string :=
  String.append "index " (String.append name " not found in IndexSet").

Definition GetIndex (s : nomsIndexSet) (sch : Schema) (name : string)
  : outcome (result Index) :=
  let '(v, ok, err) := MaybeGet (indexes s) name in
  let err := if ok then err else Some (notFound name) in
  match err with
  | Some e => Returns (Err e)
  | None =>
      match indexSchema sch name with
      | Panics msg => Panics msg
      | Returns idxSch =>
          match v ≫= asRef with
          | Some r => IndexFromRef (vrw s) idxSch r
          | None => Panics conversionPanic
          end
      end
  end.

Definition PutIndex (s : nomsIndexSet) (name : string) (idx : Index)
  : outcome (result nomsIndexSet) :=
  match RefFromIndex (vrw s) idx with
  | Panics msg => Panics msg
  | Returns (Err e) => Returns (Err e)
  | Returns (Ok ref) =>
      match mapSet (indexes s) name ref with
      | Err e => Returns (Err e)
      | Ok im => Returns (Ok {| indexes := im; vrw := vrw s |})
      end
  end.

Definition PutNomsIndex (s : nomsIndexSet) (name : string) (idx : NomsMap)
  : outcome (result nomsIndexSet) :=
  PutIndex s name (IndexFromNomsMap idx (vrw s)).

Definition DropIndex (s : nomsIndexSet) (name : string) : result nomsIndexSet :=
  match mapRemove (indexes s) name with
  | Err e => Err e
  | Ok im => Ok {| indexes := im; vrw := vrw s |}
  end.

(** What the index set needs of the store and of noms maps: a value
    written is read back through its ref, a key set is found with the
    value set, a key removed is not found, and the conversions undo each
    other. *)
Record storageLaws : Prop := {
  read_written : forall vrw v r,
    refFromNomsValue vrw v = Ok r -> TargetValue r vrw = (Some v, None);
  get_set : forall m name r im,
    mapSet m name r = Ok im -> MaybeGet im name = (Some (refValue r), true, None);
  get_removed : forall m name im,
    mapRemove m name = Ok im -> MaybeGet im name = (None, false, None);
  asRef_refValue : forall r, asRef (refValue r) = Some r;
  asMap_mapValue : forall m, asMap (mapValue m) = Some m;
  MapFromValue_ValueFromMap : forall pm sch vrw,
    MapFromValue (Some (ValueFromMap pm)) sch vrw = pm
}.

(** X22. Unwrapping undoes wrapping, and only that: [NomsMapFromIndex] gives a
    map without error exactly on an index made by [IndexFromNomsMap],
    [ProllyMapFromIndex] returns exactly on one made by
    [IndexFromProllyMap]; on the other kind of index the first returns an
    error and the second panics. *)
Theorem unwrap_undoes_wrap (i : Index) :
  (forall m, NomsMapFromIndex i = (m, None)
             <-> exists vrw, i = IndexFromNomsMap m vrw)
  /\ (forall pm, ProllyMapFromIndex i = Returns pm
                 <-> i = IndexFromProllyMap pm)
  /\ (snd (NomsMapFromIndex i) <> None
      <-> ProllyMapFromIndex i <> Panics conversionPanic).
Proof.
  unfold IndexFromNomsMap, IndexFromProllyMap.
  destruct i as [index vrw0|index]; cbn; repeat split;
    try (intros [= ->]; eauto; fail);
    try (intros [? [= ->]]; done);
    try done.
Qed.

(** X23. [RefFromIndex] picks the branch by the format the index reports and
    then asserts the implementation: it panics exactly when a prolly index
    reports format LD_1 or a noms index reports format DOLT_1; with any
    other format it returns [errNbfUnkown]. *)
Theorem RefFromIndex_panics_iff (vrw0 : VRW) (idx : Index) :
  (RefFromIndex vrw0 idx = Panics conversionPanic
   <-> (Format idx = Format_LD_1 /\ exists pm, idx = prollyIndex pm)
       \/ (Format idx = Format_DOLT_1 /\ exists m v, idx = nomsIndex m v))
  /\ (forall name, Format idx = Format_other name ->
        RefFromIndex vrw0 idx = Returns (Err errNbfUnkown)).
Proof.
  unfold RefFromIndex. split.
  - destruct idx as [m v|pm]; destruct (Format _) eqn:E; split;
      try discriminate; try (intros _; eauto; fail);
      intros [[? [? ?]]|[? [? [? ?]]]]; congruence.
  - by intros name ->.
Qed.

(** X24. [PutNomsIndex] wraps the map with the set's own store, so the format
    that decides is the store's: it panics when that is DOLT_1, returns
    [errNbfUnkown] when it is neither LD_1 nor DOLT_1, and when it returns
    a set the format was LD_1, the map was written to the store and the
    ref was set under the name; the new set has the same store. *)
Theorem PutNomsIndex_by_format (s : nomsIndexSet) (name : string) (idx : NomsMap) :
  (vrwFormat (vrw s) = Format_DOLT_1 ->
   PutNomsIndex s name idx = Panics conversionPanic)
  /\ (forall other, vrwFormat (vrw s) = Format_other other ->
        PutNomsIndex s name idx = Returns (Err errNbfUnkown))
  /\ (forall s', PutNomsIndex s name idx = Returns (Ok s') ->
        vrwFormat (vrw s) = Format_LD_1
        /\ vrw s' = vrw s
        /\ exists ref, refFromNomsValue (vrw s) (mapValue idx) = Ok ref
                       /\ mapSet (indexes s) name ref = Ok (indexes s')).
Proof.
  unfold PutNomsIndex, PutIndex, RefFromIndex, IndexFromNomsMap. cbn.
  split; [|split].
  - by intros ->.
  - by intros other ->.
  - intros s'. destruct (vrwFormat (vrw s)); try discriminate.
    destruct (refFromNomsValue (vrw s) (mapValue idx)) as [ref|e] eqn:Ew;
      [|discriminate].
    destruct (mapSet (indexes s) name ref) as [im|e] eqn:Es; [|discriminate].
    intros [= <-]. cbn. eauto.
Qed.

(** X25. An index put into a set is found again under its name, when the
    format the index reports is the format of the set's store: a prolly
    index comes back as it was, a noms index with its map and with the
    store of the set in place of its own. *)
Theorem GetIndex_after_PutIndex
    (s s' : nomsIndexSet) (sch idxSch : Schema) (name : string) (idx : Index) :
  storageLaws ->
  Format idx = vrwFormat (vrw s) ->
  PutIndex s name idx = Returns (Ok s') ->
  indexSchema sch name = Returns idxSch ->
  GetIndex s' sch name
  = Returns (Ok (match idx with
                 | nomsIndex m _ => nomsIndex m (vrw s)
                 | prollyIndex pm => prollyIndex pm
                 end)).
Proof.
  intros Hlaws Hfmt Hput Hsch. unfold PutIndex, RefFromIndex in Hput.
  assert (exists v ref,
            refFromNomsValue (vrw s) v = Ok ref
            /\ mapSet (indexes s) name ref = Ok (indexes s')
            /\ vrw s' = vrw s
            /\ match idx with
               | nomsIndex m _ =>
                   v = mapValue m /\ vrwFormat (vrw s) = Format_LD_1
               | prollyIndex pm =>
                   v = ValueFromMap pm /\ vrwFormat (vrw s) = Format_DOLT_1
               end) as (v & ref & Hw & Hs & Hv & Hidx).
  { rewrite <- Hfmt.
    destruct (Format idx) eqn:Ef; destruct idx as [m v0|pm];
      try discriminate;
      match type of Hput with
      | context [refFromNomsValue ?a ?b] =>
          destruct (refFromNomsValue a b) as [ref|e] eqn:Ew; [|discriminate];
          destruct (mapSet (indexes s) name ref) as [im|e] eqn:Es;
            [|discriminate];
          injection Hput as <-; exists b, ref; cbn; done
      end. }
  unfold GetIndex.
  rewrite (get_set Hlaws _ _ _ _ Hs), Hsch. cbn.
  rewrite (asRef_refValue Hlaws). unfold IndexFromRef.
  rewrite Hv, (read_written Hlaws _ _ _ Hw).
  destruct idx as [m v0|pm]; destruct Hidx as [-> ->]; cbn.
  - by rewrite (asMap_mapValue Hlaws).
  - unfold IndexFromProllyMap. by rewrite (MapFromValue_ValueFromMap Hlaws).
Qed.

(** X26. [GetIndex] reports "not found" whenever the lookup says the name is
    not there, also when the lookup itself failed: the lookup's error is
    then replaced.  So after [DropIndex] the name is not found. *)
Theorem GetIndex_not_found (s : nomsIndexSet) (sch : Schema) (name : string) :
  (forall v err, MaybeGet (indexes s) name = (v, false, err) ->
     GetIndex s sch name = Returns (Err (notFound name)))
  /\ (storageLaws ->
      forall s', DropIndex s name = Ok s' ->
        GetIndex s' sch name = Returns (Err (notFound name))).
Proof.
  split.
  - intros v err Hget. unfold GetIndex. by rewrite Hget.
  - intros Hlaws s'. unfold DropIndex.
    destruct (mapRemove (indexes s) name) as [im|e] eqn:Er; [|discriminate].
    intros [= <-]. unfold GetIndex. cbn.
    by rewrite (get_removed Hlaws _ _ _ Er).
Qed.

End Index.

(** *** An index set over a store that keeps values by content *)

(** Values: a noms map, a prolly map, or a ref; a ref is the value it
    points to. *)
Inductive toyValue :=
| toyMapV (entries : list toyEntry)
| toyProllyV (rows : list nat)
| toyRefV (target : toyValue)
with toyEntry :=
| toyBind (name : string) (value : toyValue).

Definition toyMap := list toyEntry.

(** A store is its name and its format. *)
Definition toyVRW := (string * NomsBinFormat)%type.

Definition toyIndex := @Index toyVRW toyMap (list nat).
Definition toyIndexSet := @nomsIndexSet toyVRW toyMap.

Definition toyProllyFormat (pm : list nat) : NomsBinFormat := Format_DOLT_1.

Definition toyAsMap (v : toyValue) : option toyMap :=
  match v with toyMapV m => Some m | _ => None end.

Definition toyAsRef (v : toyValue) : option toyValue :=
  match v with toyRefV r => Some r | _ => None end.

Definition toyWrite (vrw : toyVRW) (v : toyValue) : result toyValue := Ok v.

Definition toyTarget (r : toyValue) (vrw : toyVRW) : option toyValue * error :=
  (Some r, None).

Definition toyMapFromValue (v : option toyValue) (sch : unit) (vrw : toyVRW)
  : list nat :=
  match v with Some (toyProllyV rows) => rows | _ => [] end.

Fixpoint toyMaybeGet (m : toyMap) (name : string)
  : option toyValue * bool * error :=
  match m with
  | [] => (None, false, None)
  | toyBind k v :: rest =>
      if String.eqb k name then (Some v, true, None) else toyMaybeGet rest name
  end.

Definition toySet (m : toyMap) (name : string) (r : toyValue) : result toyMap :=
  Ok (toyBind name (toyRefV r) :: m).

Fixpoint toyRemoveAll (m : toyMap) (name : string) : toyMap :=
  match m with
  | [] => []
  | toyBind k v :: rest =>
      if String.eqb k name then toyRemoveAll rest name
      else toyBind k v :: toyRemoveAll rest name
  end.

Definition toyRemove (m : toyMap) (name : string) : result toyMap :=
  Ok (toyRemoveAll m name).

Definition toySchema (sch : unit) (name : string) : outcome unit := Returns sch.

Definition toyUnknown : string := "unknown NomsBinFormat".

Definition toyGetIndex : toyIndexSet -> unit -> string -> outcome (result toyIndex) :=
  GetIndex snd toyAsMap toyAsRef toyTarget toyMapFromValue toyMaybeGet
    toySchema toyUnknown.

Definition toyPutIndex
  : toyIndexSet -> string -> toyIndex -> outcome (result toyIndexSet) :=
  PutIndex snd toyProllyFormat toyMapV toyWrite toyProllyV toySet toyUnknown.

Definition toyPutNomsIndex
  : toyIndexSet -> string -> toyMap -> outcome (result toyIndexSet) :=
  PutNomsIndex snd toyProllyFormat toyMapV toyWrite toyProllyV toySet toyUnknown.

Definition toyRefFromIndex : toyVRW -> toyIndex -> outcome (result toyValue) :=
  RefFromIndex snd toyProllyFormat toyMapV toyWrite toyProllyV toyUnknown.

Lemma toyMaybeGet_removed (m : toyMap) (name : string) :
  toyMaybeGet (toyRemoveAll m name) name = (None, false, None).
Proof.
  induction m as [|[k v] rest IH]; [done|]. cbn.
  destruct (String.eqb k name) eqn:E; [done|]. cbn. by rewrite E.
Qed.

Lemma toy_storageLaws :
  storageLaws (Schema := unit) toyMapV toyRefV toyAsMap toyAsRef toyWrite
    toyTarget toyProllyV toyMapFromValue toyMaybeGet toySet toyRemove.
Proof.
  split.
  - by intros vrw0 v r [= ->].
  - intros m name r im [= <-]. cbn. by rewrite String.eqb_refl.
  - intros m name im [= <-]. apply toyMaybeGet_removed.
  - done.
  - done.
  - done.
Qed.

(** Two stores of the old format, and one of the new. *)
Definition thisStore : toyVRW := ("this"%string, Format_LD_1).
Definition thatStore : toyVRW := ("that"%string, Format_LD_1).
Definition newStore : toyVRW := ("new"%string, Format_DOLT_1).

Definition emptySet : toyIndexSet := {| indexes := []; vrw := thisStore |}.

Definition rowsById : toyMap := [toyBind "1" (toyProllyV [10])].

Definition oneIndexSet : toyIndexSet :=
  {| indexes := [toyBind "by_id" (toyRefV (toyMapV rowsById))];
     vrw := thisStore |}.

(** A noms index over another store is put into a set and comes back over
    the store of the set. *)
Lemma GetIndex_after_PutIndex_witness :
  toyGetIndex oneIndexSet tt "by_id"
  = Returns (Ok (nomsIndex rowsById thisStore)).
Proof.
  apply (GetIndex_after_PutIndex snd toyProllyFormat toyMapV toyRefV toyAsMap
           toyAsRef toyWrite toyTarget toyProllyV toyMapFromValue toyMaybeGet
           toySet toyRemove toySchema toyUnknown
           emptySet oneIndexSet tt tt "by_id" (nomsIndex rowsById thatStore)).
  - exact toy_storageLaws.
  - reflexivity.
  - reflexivity.
  - reflexivity.
Defined.

Lemma GetIndex_not_found_witness :
  toyGetIndex emptySet tt "by_id" = Returns (Err (notFound "by_id")).
Proof.
  apply (proj2 (GetIndex_not_found snd toyMapV toyRefV toyAsMap toyAsRef
                  toyWrite toyTarget toyProllyV toyMapFromValue toyMaybeGet
                  toySet toyRemove toySchema toyUnknown
                  oneIndexSet tt "by_id") toy_storageLaws emptySet).
  reflexivity.
Defined.

Lemma PutNomsIndex_by_format_witness :
  toyPutNomsIndex {| indexes := []; vrw := newStore |} "by_id" rowsById
  = Panics conversionPanic.
Proof.
  apply (proj1 (PutNomsIndex_by_format snd toyProllyFormat toyMapV toyWrite
                  toyProllyV toySet toyUnknown
                  {| indexes := []; vrw := newStore |} "by_id" rowsById)).
  reflexivity.
Defined.

Lemma RefFromIndex_panics_iff_witness :
  toyRefFromIndex thisStore (nomsIndex rowsById newStore)
  = Panics conversionPanic.
Proof.
  apply (proj1 (RefFromIndex_panics_iff snd toyProllyFormat toyMapV toyWrite
                  toyProllyV toyUnknown thisStore
                  (nomsIndex rowsById newStore))).
  right. split; [reflexivity|]. by exists rowsById, newStore.
Defined.

End durable.
